(** * Single-table round-robin scheduler (tt_schedule_or.py)

    A shallow embedding of [schedule_round_robin]: the CP-SAT model it
    builds for a participant count [n] and a candidate idle-gap bound [T],
    the loop over the candidate bounds, and the extraction of the schedule
    from the solver's answer.  The CP-SAT solver is an external
    collaborator: it enters as a function from the model and the solver
    parameters to a status and a value for every Boolean variable.  The
    script's main block is embedded up to the list of table rows it
    builds; reading the argument text and the pandas table are outside. *)

From Stdlib Require Import String Ascii DecimalString DecimalZ.
From Stdlib Require Import ZArith List Bool Lia Permutation Sorted.
Import ListNotations.
Open Scope Z_scope.

(** ** Python built-ins used by the script *)

(** [range(k)]: 0, 1, ..., k-1; empty when [k <= 0]. *)
Definition range (k : Z) : list Z :=
  map Z.of_nat (seq 0 (Z.to_nat k)).

(** [range(a, b)]: a, a+1, ..., b-1; empty when [b <= a]. *)
Definition range2 (a b : Z) : list Z :=
  map (fun k => a + Z.of_nat k) (seq 0 (Z.to_nat (b - a))).

(** A schedule entry is a Python tuple of three ints. *)
Definition triple : Type := (Z * Z * Z)%type.

(** Tuple comparison is lexicographic. *)
Definition triple_leb (s t : triple) : bool :=
  let '(r1, a1, b1) := s in
  let '(r2, a2, b2) := t in
  (r1 <? r2) || ((r1 =? r2) && ((a1 <? a2) || ((a1 =? a2) && (b1 <=? b2)))).

Definition triple_le (s t : triple) : Prop := triple_leb s t = true.

(** [sorted(l)] returns the ascending stable rearrangement of [l]; a stable
    insertion sort computes the same list. *)
Fixpoint insert_sorted (t : triple) (l : list triple) : list triple :=
  match l with
  | [] => [t]
  | u :: l' => if triple_leb u t then u :: insert_sorted t l' else t :: u :: l'
  end.

Definition sorted (l : list triple) : list triple :=
  fold_left (fun acc t => insert_sorted t acc) l [].

(** ** The part of [cp_model] the script uses *)

(** A Boolean variable is identified by the dictionary key it is stored
    under: [X i j r] is the object held in [x[(i, j, r)]] (named
    [x_i_j_r]), [Y i r] the one held in [y[(i, r)]] (named [y_i_r]). *)
Inductive BoolVar : Type :=
| X (i j r : Z)
| Y (i r : Z).

(** The right-hand sides that occur: the literal 1 and a variable. *)
Inductive Bound : Type :=
| Const (c : Z)
| Var (v : BoolVar).

Inductive Relation : Type := EQ | GE.

(** [sum(vars) == bound] or [sum(vars) >= bound]. *)
Record BoundedLinearExpression : Type := mkBLE {
  terms : list BoolVar;
  rel : Relation;
  bound : Bound
}.

(** [CpModel()] accumulates declared variables and posted constraints. *)
Record CpModel : Type := mkModel {
  bool_vars : list BoolVar;
  constraints : list BoundedLinearExpression
}.

Definition empty_model : CpModel := mkModel [] [].

Definition NewBoolVar (model : CpModel) (v : BoolVar) : CpModel :=
  mkModel (bool_vars model ++ [v]) (constraints model).

Definition Add (model : CpModel) (c : BoundedLinearExpression) : CpModel :=
  mkModel (bool_vars model) (constraints model ++ [c]).

Inductive CpSolverStatus : Type :=
| UNKNOWN
| MODEL_INVALID
| FEASIBLE
| INFEASIBLE
| OPTIMAL.

(** [status in (cp_model.OPTIMAL, cp_model.FEASIBLE)] *)
Definition reports_solution (status : CpSolverStatus) : bool :=
  match status with
  | OPTIMAL | FEASIBLE => true
  | _ => false
  end.

(** An assignment gives each Boolean variable its value; [solver.Value]
    returns 0 or 1 and the script only tests it for truth. *)
Definition assignment : Type := BoolVar -> bool.

Definition sum_vars (a : assignment) (vs : list BoolVar) : Z :=
  fold_right (fun v acc => Z.b2z (a v) + acc) 0 vs.

Definition bound_value (a : assignment) (b : Bound) : Z :=
  match b with
  | Const c => c
  | Var v => Z.b2z (a v)
  end.

Definition holds (a : assignment) (c : BoundedLinearExpression) : Prop :=
  match rel c with
  | EQ => sum_vars a (terms c) = bound_value a (bound c)
  | GE => sum_vars a (terms c) >= bound_value a (bound c)
  end.

Definition holdsb (a : assignment) (c : BoundedLinearExpression) : bool :=
  match rel c with
  | EQ => sum_vars a (terms c) =? bound_value a (bound c)
  | GE => sum_vars a (terms c) >=? bound_value a (bound c)
  end.

Definition satisfies (a : assignment) (model : CpModel) : Prop :=
  Forall (holds a) (constraints model).

Definition satisfiesb (a : assignment) (model : CpModel) : bool :=
  forallb (holdsb a) (constraints model).

Definition feasible (model : CpModel) : Prop :=
  exists a, satisfies a model.

(** ** The encoder: lines 13-52 of the script *)

(** [M = n * (n - 1) // 2] *)
Definition rounds (n : Z) : Z := n * (n - 1) / 2.

(** [pairs = [(i, j) for i in range(n) for j in range(i + 1, n)]] *)
Definition pairs (n : Z) : list (Z * Z) :=
  flat_map (fun i => map (fun j => (i, j)) (range2 (i + 1) n)) (range n).

(** The keys of the dictionary [x] in insertion order, which is the order
    [x.items()] yields them in. *)
Definition x_items (n : Z) : list (triple * BoolVar) :=
  flat_map (fun '(i, j) => map (fun r => ((i, j, r), X i j r)) (range (rounds n)))
           (pairs n).

Definition y_items (n : Z) : list ((Z * Z) * BoolVar) :=
  flat_map (fun i => map (fun r => ((i, r), Y i r)) (range (rounds n)))
           (range n).

Definition declare_variables (n : Z) (model : CpModel) : CpModel :=
  let model :=
    fold_left (fun m '(i, j) =>
                 fold_left (fun m r => NewBoolVar m (X i j r)) (range (rounds n)) m)
              (pairs n) model in
  fold_left (fun m i =>
               fold_left (fun m r => NewBoolVar m (Y i r)) (range (rounds n)) m)
            (range n) model.

(** 1) Each match exactly once. *)
Definition match_once (n : Z) (ij : Z * Z) : BoundedLinearExpression :=
  let '(i, j) := ij in
  mkBLE (map (fun r => X i j r) (range (rounds n))) EQ (Const 1).

(** 2) Only one match per round. *)
Definition one_per_round (n : Z) (r : Z) : BoundedLinearExpression :=
  mkBLE (map (fun '(i, j) => X i j r) (pairs n)) EQ (Const 1).

(** 3) Link x and y. *)
Definition involves (i : Z) (ab : Z * Z) : bool :=
  let '(a, b) := ab in (a =? i) || (b =? i).

Definition linkage (n : Z) (i r : Z) : BoundedLinearExpression :=
  mkBLE (map (fun '(a, b) => X a b r) (filter (involves i) (pairs n)))
        EQ (Var (Y i r)).

(** 4) Idle-time constraint on the window of T+1 rounds from [start]. *)
Definition window (T : Z) (i start : Z) : BoundedLinearExpression :=
  mkBLE (map (fun s => Y i (start + s)) (range (T + 1))) GE (Const 1).

Definition post_constraints (n T : Z) (model : CpModel) : CpModel :=
  let M := rounds n in
  let model := fold_left (fun m ij => Add m (match_once n ij)) (pairs n) model in
  let model := fold_left (fun m r => Add m (one_per_round n r)) (range M) model in
  let model :=
    fold_left (fun m i => fold_left (fun m r => Add m (linkage n i r)) (range M) m)
              (range n) model in
  fold_left (fun m i =>
               fold_left (fun m start => Add m (window T i start)) (range (M - T)) m)
            (range n) model.

(** The four families of constraints, in the order they are posted. *)
Definition match_once_constraints (n : Z) : list BoundedLinearExpression :=
  map (match_once n) (pairs n).

Definition one_per_round_constraints (n : Z) : list BoundedLinearExpression :=
  map (one_per_round n) (range (rounds n)).

Definition linkage_constraints (n : Z) : list BoundedLinearExpression :=
  flat_map (fun i => map (linkage n i) (range (rounds n))) (range n).

Definition window_constraints (n T : Z) : list BoundedLinearExpression :=
  flat_map (fun i => map (window T i) (range (rounds n - T))) (range n).

(** The model of one iteration of the loop over [T]. *)
Definition build_model (n T : Z) : CpModel :=
  post_constraints n T (declare_variables n empty_model).

(** ** Extraction of the schedule: lines 63-67 *)

(** [schedule.append((r + 1, i + 1, j + 1))] for every item of [x] whose
    variable is true, in the order of [x.items()]. *)
Definition extract_schedule (n : Z) (Value : assignment) : list triple :=
  map (fun '((i, j, r), _) => (r + 1, i + 1, j + 1))
      (filter (fun '(_, var) => Value var) (x_items n)).

(** The components of a schedule entry [(round, participant_a, participant_b)]. *)
Definition entry_round (e : triple) : Z := fst (fst e).

Definition entry_match (e : triple) : Z * Z := (snd (fst e), snd e).

(** The round the assignment plays the match [(i, j)] in (the first one,
    should there be several). *)
Definition round_of (n : Z) (a : assignment) (ij : Z * Z) : Z :=
  hd 0 (filter (fun r => a (X (fst ij) (snd ij) r)) (range (rounds n))).

(** ** The bound search: lines 18 and 54-70 *)

Section BoundSearch.

(** The type of the time budget in seconds (a Python number). *)
Context {seconds : Type}.

Record SatParameters : Type := mkParams {
  max_time_in_seconds : option seconds;
  num_search_workers : Z
}.

(** [solver.Solve(model)] under the parameters set on the solver: the
    status, and what [solver.Value] answers afterwards. *)
Variable Solve : CpModel -> SatParameters -> CpSolverStatus * assignment.

(** [max_time_in_seconds] is set only when a limit is given. *)
Definition solver_parameters (time_limit_s : option seconds) (num_workers : Z)
  : SatParameters :=
  mkParams time_limit_s num_workers.

Definition solver_call : Type := (CpModel * SatParameters)%type.

(** The body of [for T in range(M)], threading the list of solver
    invocations made so far. *)
Fixpoint for_T (n : Z) (time_limit_s : option seconds) (num_workers : Z)
         (Ts : list Z) (calls : list solver_call)
  : list solver_call * option (Z * list triple) :=
  match Ts with
  | [] => (calls, None)
  | T :: Ts' =>
      let model := build_model n T in
      let parameters := solver_parameters time_limit_s num_workers in
      let '(status, Value) := Solve model parameters in
      let calls := calls ++ [(model, parameters)] in
      if reports_solution status
      then (calls, Some (T, sorted (extract_schedule n Value)))
      else for_T n time_limit_s num_workers Ts' calls
  end.

(** The function together with the solver invocations it made. *)
Definition schedule_round_robin_run (n : Z) (time_limit_s : option seconds)
           (num_workers : Z)
  : list solver_call * option (Z * list triple) :=
  for_T n time_limit_s num_workers (range (rounds n)) [].

(** [schedule_round_robin(n, time_limit_s, num_workers)]: [Some (T, schedule)]
    for the returned tuple, [None] for Python's [None]. *)
Definition schedule_round_robin (n : Z) (time_limit_s : option seconds)
           (num_workers : Z) : option (Z * list triple) :=
  snd (schedule_round_robin_run n time_limit_s num_workers).

End BoundSearch.

Arguments SatParameters : clear implicits.
Arguments solver_call : clear implicits.

(** ** Vocabulary for statements about the search *)

(** The invocation made for the candidate bound [T]. *)
Definition call_at {seconds : Type} (n : Z) (time_limit_s : option seconds)
           (num_workers : Z) (T : Z) : solver_call seconds :=
  (build_model n T, solver_parameters time_limit_s num_workers).

(** What the solver answers for the candidate bound [T]. *)
Definition answer_at {seconds : Type}
           (Solve : CpModel -> SatParameters seconds -> CpSolverStatus * assignment)
           (n : Z) (time_limit_s : option seconds) (num_workers : Z) (T : Z)
  : CpSolverStatus * assignment :=
  Solve (build_model n T) (solver_parameters time_limit_s num_workers).

Definition status_at {seconds : Type}
           (Solve : CpModel -> SatParameters seconds -> CpSolverStatus * assignment)
           (n : Z) (time_limit_s : option seconds) (num_workers : Z) (T : Z)
  : CpSolverStatus :=
  fst (answer_at Solve n time_limit_s num_workers T).

Definition value_at {seconds : Type}
           (Solve : CpModel -> SatParameters seconds -> CpSolverStatus * assignment)
           (n : Z) (time_limit_s : option seconds) (num_workers : Z) (T : Z)
  : assignment :=
  snd (answer_at Solve n time_limit_s num_workers T).

(** The solver contract: a reported solution satisfies the model and
    [INFEASIBLE] is reported only for a model without solution; [UNKNOWN]
    promises nothing. *)
Definition truthful (model : CpModel) (answer : CpSolverStatus * assignment) : Prop :=
  match fst answer with
  | OPTIMAL | FEASIBLE => satisfies (snd answer) model
  | INFEASIBLE => ~ feasible model
  | UNKNOWN | MODEL_INVALID => True
  end.

(** [T] is the least bound whose model has a solution. *)
Definition minimal_feasible (n T : Z) : Prop :=
  feasible (build_model n T)
  /\ forall T', 0 <= T' < T -> ~ feasible (build_model n T').


(** The same solver with every [UNKNOWN] relabelled [INFEASIBLE]. *)
Definition unknown_as_infeasible {seconds : Type}
           (Solve : CpModel -> SatParameters seconds -> CpSolverStatus * assignment)
  : CpModel -> SatParameters seconds -> CpSolverStatus * assignment :=
  fun model parameters =>
    let '(status, Value) := Solve model parameters in
    (match status with UNKNOWN => INFEASIBLE | _ => status end, Value).

(** ** Concrete solvers used to run the search on small inputs *)

(** A solver that gives up on every model (a time budget that is always
    exceeded). *)
Definition always_unknown {seconds : Type}
  : CpModel -> SatParameters seconds -> CpSolverStatus * assignment :=
  fun _ _ => (UNKNOWN, fun _ => false).

(** A solver that reports every model infeasible. *)
Definition always_infeasible {seconds : Type}
  : CpModel -> SatParameters seconds -> CpSolverStatus * assignment :=
  fun _ _ => (INFEASIBLE, fun _ => false).

(** The assignment that plays the given (0-based) [(i, j, r)] entries. *)
Definition assignment_of (entries : list triple) : assignment :=
  fun v =>
    match v with
    | X i j r =>
        existsb (fun '(i', j', r') => (i =? i') && (j =? j') && (r =? r')) entries
    | Y p r =>
        existsb (fun '(i', j', r') => (r =? r') && ((i' =? p) || (j' =? p))) entries
    end.

(** A solver that tests one candidate assignment and gives up when it
    does not fit the model. *)
Definition try_candidate {seconds : Type} (entries : list triple)
  : CpModel -> SatParameters seconds -> CpSolverStatus * assignment :=
  fun model _ =>
    let a := assignment_of entries in
    if satisfiesb a model then (FEASIBLE, a) else (UNKNOWN, fun _ => false).

(** A solver that tests one candidate assignment and reports the model
    infeasible when it does not fit. *)
Definition candidate_or_infeasible {seconds : Type} (entries : list triple)
  : CpModel -> SatParameters seconds -> CpSolverStatus * assignment :=
  fun model _ =>
    let a := assignment_of entries in
    if satisfiesb a model then (FEASIBLE, a) else (INFEASIBLE, fun _ => false).

(** Candidate schedules as 0-based [(i, j, r)] entries. *)
Definition two_players : list triple := [(0, 1, 0)].

Definition three_players : list triple := [(0, 1, 0); (1, 2, 1); (0, 2, 2)].

(** Four players, nobody idle for more than two rounds in a row. *)
Definition four_players_gap_2 : list triple :=
  [(0, 1, 0); (2, 3, 1); (0, 2, 2); (1, 3, 3); (0, 3, 4); (1, 2, 5)].

(** Four players in the order of [pairs]: player 0 is idle in the last
    three rounds. *)
Definition four_players_gap_3 : list triple :=
  [(0, 1, 0); (0, 2, 1); (0, 3, 2); (1, 2, 3); (1, 3, 4); (2, 3, 5)].

(** ** Vocabulary for further properties of the encoder and the schedule *)

Definition pair_eqb (u v : Z * Z) : bool :=
  (fst u =? fst v) && (snd u =? snd v).

(** The assignment that plays the k-th pair of [pairs] in round k. *)
Definition listing_order (n : Z) : assignment :=
  fun v =>
    match v with
    | X i j r =>
        (0 <=? r) && pair_eqb (nth (Z.to_nat r) (pairs n) (-1, -1)) (i, j)
    | Y p r =>
        (0 <=? r) && involves p (nth (Z.to_nat r) (pairs n) (-1, -1))
    end.

(** The assignment that plays the k-th pair of [order] in round k. *)
Definition play_in_order (order : list (Z * Z)) : assignment :=
  fun v =>
    match v with
    | X i j r =>
        (0 <=? r) && pair_eqb (nth (Z.to_nat r) order (-1, -1)) (i, j)
    | Y p r =>
        (0 <=? r) && involves p (nth (Z.to_nat r) order (-1, -1))
    end.

(** The 1-based schedule that plays the k-th pair of [order] in round k+1. *)
Definition schedule_of_order (order : list (Z * Z)) : list triple :=
  map (fun k => (Z.of_nat k + 1,
                 fst (nth k order (-1, -1)) + 1,
                 snd (nth k order (-1, -1)) + 1))
      (seq 0 (length order)).

(** Every participant plays in every T+1 consecutive rounds of [order]. *)
Definition keeps_gap (n T : Z) (order : list (Z * Z)) : Prop :=
  forall p start, 0 <= p < n -> 0 <= start < rounds n - T ->
    exists s, 0 <= s <= T
              /\ involves p (nth (Z.to_nat (start + s)) order (-1, -1)) = true.

(** The same solver with its statuses relabelled. *)
Definition relabel {seconds : Type} (f : CpSolverStatus -> CpSolverStatus)
           (Solve : CpModel -> SatParameters seconds -> CpSolverStatus * assignment)
  : CpModel -> SatParameters seconds -> CpSolverStatus * assignment :=
  fun model parameters =>
    let '(status, Value) := Solve model parameters in (f status, Value).

(** The opponent of [p] in a pair that contains [p]. *)
Definition opponent (p : Z) (ab : Z * Z) : Z :=
  if fst ab =? p then snd ab else fst ab.

(** Whether the schedule entry is a match of the participant labelled [p]. *)
Definition entry_involves (p : Z) (e : triple) : bool :=
  (snd (fst e) =? p) || (snd e =? p).

(** ** The script's main block: lines 73-93 *)

(** [f"{z}"] for an int: its decimal digits, with a minus sign when
    negative. *)
Definition str (z : Z) : string := NilZero.string_of_int (Z.to_int z).

(** [s.rjust(width)]: spaces in front up to the width. *)
Definition rjust (width : nat) (s : string) : string :=
  String.append
    (string_of_list_ascii (repeat " "%char (width - String.length s)))
    s.

(** [f"{z:2d}"]: the decimal digits right-aligned in at least two columns. *)
Definition format_2d (z : Z) : string := rjust 2 (str z).

Definition newline : string := String "010"%char EmptyString.

(** [print(s)] writes [s] and a line end. *)
Definition print (s : string) : string := String.append s newline.

(** A row of the table is a dict from column name to int, kept in insertion
    order. *)
Definition row : Type := list (string * Z).

(** [d[k] = v]: a present key keeps its place and takes the new value, a
    new key goes last. *)
Fixpoint dict_set (d : row) (k : string) (v : Z) : row :=
  match d with
  | [] => [(k, v)]
  | (k', v') :: d' =>
      if String.eqb k k' then (k, v) :: d' else (k', v') :: dict_set d' k v
  end.

(** [d.get(k)] *)
Fixpoint dict_get (d : row) (k : string) : option Z :=
  match d with
  | [] => None
  | (k', v') :: d' => if String.eqb k k' then Some v' else dict_get d' k
  end.

(** [f'Player {player}'] *)
Definition player_key (player : Z) : string :=
  String.append "Player " (str player).

(** [1 if player in (p1, p2) else 0] *)
Definition plays_mark (player p1 p2 : Z) : Z :=
  if (player =? p1) || (player =? p2) then 1 else 0.

(** Lines 84-86: the row of one schedule entry. *)
Definition make_row (n_players : Z) (e : triple) : row :=
  let '(round_, p1, p2) := e in
  fold_left (fun r player => dict_set r (player_key player) (plays_mark player p1 p2))
            (range2 1 (n_players + 1))
            [("Round"%string, round_)].

(** [f"Round {round_:2d}: Player {p1} vs Player {p2}"] *)
Definition match_line (e : triple) : string :=
  let '(round_, p1, p2) := e in
  String.append "Round "
    (String.append (format_2d round_)
       (String.append ": Player "
          (String.append (str p1) (String.append " vs Player " (str p2))))).

Definition no_schedule_message : string :=
  "No feasible schedule found within the time limit.".

(** Lines 78-93 after the call: what is written to standard output (one
    string per [print]) and the list [data] of rows, which exists only on
    the success branch.  A returned tuple is truthy whatever it holds, so
    the else branch is taken exactly for [None]. *)
Definition report (n_players : Z) (result : option (Z * list triple))
  : list string * option (list row) :=
  match result with
  | Some (T_opt, schedule) =>
      let header :=
        print (String.append "Optimal maximum idle gap: "
                             (String.append (str T_opt) newline)) in
      let '(out, data) :=
        fold_left (fun '(out, data) e =>
                     (out ++ [print (match_line e)], data ++ [make_row n_players e]))
                  schedule ([header], []) in
      (out, Some data)
  | None => ([print no_schedule_message], None)
  end.

(** The main block, given the integer read from [sys.argv[1]] when there
    is one: the solver invocations, the output and [data]. *)
Definition main (Solve : CpModel -> SatParameters Z -> CpSolverStatus * assignment)
           (argument : option Z)
  : list (solver_call Z) * (list string * option (list row)) :=
  let n_players := match argument with Some k => k | None => 6 end in
  let '(calls, result) := schedule_round_robin_run Solve n_players (Some 30) 8 in
  (calls, report n_players result).

(** The sum of a player's column over the rows of [data]. *)
Definition column_total (data : list row) (key : string) : Z :=
  fold_right (fun r acc => match dict_get r key with Some v => v + acc | None => acc end)
             0 data.

(** ** Tests on concrete inputs *)

Example range_3 : range 3 = [0; 1; 2].
Proof. reflexivity. Qed.

Example range_neg : range (-2) = [].
Proof. reflexivity. Qed.

Example pairs_4 : pairs 4 = [(0, 1); (0, 2); (0, 3); (1, 2); (1, 3); (2, 3)].
Proof. reflexivity. Qed.

Example rounds_small :
  map rounds [-1; 0; 1; 2; 3; 4] = [1; 0; 0; 1; 3; 6].
Proof. reflexivity. Qed.

Example sorted_example :
  sorted [(3, 1, 3); (1, 2, 3); (2, 1, 2); (1, 1, 4)]
  = [(1, 1, 4); (1, 2, 3); (2, 1, 2); (3, 1, 3)].
Proof. reflexivity. Qed.

Example model_2_0 :
  build_model 2 0
  = mkModel [X 0 1 0; Y 0 0; Y 1 0]
            [ mkBLE [X 0 1 0] EQ (Const 1);
              mkBLE [X 0 1 0] EQ (Const 1);
              mkBLE [X 0 1 0] EQ (Var (Y 0 0));
              mkBLE [X 0 1 0] EQ (Var (Y 1 0));
              mkBLE [Y 0 0] GE (Const 1);
              mkBLE [Y 1 0] GE (Const 1) ].
Proof. reflexivity. Qed.

Example match_line_example :
  match_line (3, 1, 12) = "Round  3: Player 1 vs Player 12"%string
  /\ match_line (10, 2, 3) = "Round 10: Player 2 vs Player 3"%string
  /\ make_row 3 (2, 1, 3)
     = [("Round", 2); ("Player 1", 1); ("Player 2", 0); ("Player 3", 1)]%string.
Proof. repeat split. Qed.

Example run_3 :
  schedule_round_robin (seconds := Z)
    (try_candidate three_players) 3 None 8
  = Some (1, [(1, 1, 2); (2, 2, 3); (3, 1, 3)]).
Proof. vm_compute. reflexivity. Qed.

Example run_4_gap_2 :
  schedule_round_robin (seconds := Z) (try_candidate four_players_gap_2) 4 None 8
  = Some (2, [(1, 1, 2); (2, 3, 4); (3, 1, 3); (4, 2, 4); (5, 1, 4); (6, 2, 3)]).
Proof. vm_compute. reflexivity. Qed.

Example run_4_gap_3 :
  schedule_round_robin (seconds := Z) (try_candidate four_players_gap_3) 4 None 8
  = Some (3, [(1, 1, 2); (2, 1, 3); (3, 1, 4); (4, 2, 3); (5, 2, 4); (6, 3, 4)]).
Proof. vm_compute. reflexivity. Qed.

(** ** Facts about [range] and [pairs] *)

Lemma in_range (k i : Z) : In i (range k) <-> 0 <= i < k.
Proof.
  unfold range. rewrite in_map_iff. split.
  - intros (m & <- & Hm). apply in_seq in Hm. lia.
  - intros Hi. exists (Z.to_nat i). split; [lia|]. apply in_seq. lia.
Qed.

Lemma in_range2 (a b i : Z) : In i (range2 a b) <-> a <= i < b.
Proof.
  unfold range2. rewrite in_map_iff. split.
  - intros (m & <- & Hm). apply in_seq in Hm. lia.
  - intros Hi. exists (Z.to_nat (i - a)). split; [lia|]. apply in_seq. lia.
Qed.

Lemma Injective_map_NoDup' {A B : Type} (f : A -> B) (l : list A) :
  (forall u v, f u = f v -> u = v) -> NoDup l -> NoDup (map f l).
Proof.
  intros Hf. induction 1 as [|a l Ha Hl IH]; simpl; constructor; auto.
  intros Hin. apply in_map_iff in Hin as (b & Hb & Hin).
  apply Hf in Hb. now subst.
Qed.

Lemma length_range (k : Z) : length (range k) = Z.to_nat k.
Proof. unfold range. now rewrite length_map, length_seq. Qed.

Lemma NoDup_range (k : Z) : NoDup (range k).
Proof.
  unfold range. apply Injective_map_NoDup'.
  - intros a b. apply Nat2Z.inj.
  - apply seq_NoDup.
Qed.

Lemma NoDup_range2 (a b : Z) : NoDup (range2 a b).
Proof.
  unfold range2. apply Injective_map_NoDup'.
  - intros u v. lia.
  - apply seq_NoDup.
Qed.


Lemma in_pairs (n i j : Z) : In (i, j) (pairs n) <-> 0 <= i < j /\ j < n.
Proof.
  unfold pairs. rewrite in_flat_map. split.
  - intros (i' & Hi & Hj). apply in_map_iff in Hj as (j' & Heq & Hj).
    inversion Heq; subst. apply in_range in Hi. apply in_range2 in Hj. lia.
  - intros H. exists i. split; [apply in_range; lia|].
    apply in_map_iff. exists j. split; [reflexivity|]. apply in_range2. lia.
Qed.

Lemma NoDup_flat_map {A B : Type} (f : A -> list B) (l : list A) :
  NoDup l ->
  (forall a, In a l -> NoDup (f a)) ->
  (forall a a' b, In a l -> In a' l -> In b (f a) -> In b (f a') -> a = a') ->
  NoDup (flat_map f l).
Proof.
  induction 1 as [|a l Ha Hl IH]; intros Hf Hdisj; simpl; [constructor|].
  apply NoDup_app.
  - apply Hf. now left.
  - apply IH.
    + intros a' Ha'. apply Hf. now right.
    + intros a1 a2 b H1 H2. apply Hdisj; now right.
  - intros b Hb Hb'. apply in_flat_map in Hb' as (a' & Ha' & Hb').
    assert (a = a') by (apply (Hdisj a a' b); auto; [now left|now right]).
    subst. contradiction.
Qed.

Lemma NoDup_pairs (n : Z) : NoDup (pairs n).
Proof.
  unfold pairs. apply NoDup_flat_map.
  - apply NoDup_range.
  - intros i _. apply Injective_map_NoDup'; [|apply NoDup_range2].
    intros u v Huv. now inversion Huv.
  - intros i i' [u v] _ _ H1 H2.
    apply in_map_iff in H1 as (? & H1 & _). apply in_map_iff in H2 as (? & H2 & _).
    congruence.
Qed.

(** The number of pairs is the number of rounds. *)
Lemma length_pairs_nat (m : nat) :
  (2 * length (pairs (Z.of_nat m)) = m * (m - 1))%nat.
Proof.
  unfold pairs, range. rewrite Nat2Z.id.
  set (row := fun i => map (fun j => (i, j)) (range2 (i + 1) (Z.of_nat m))).
  assert (Hrow : forall k, length (row (Z.of_nat k)) = (m - S k)%nat).
  { intros k. unfold row, range2. rewrite !length_map, length_seq. lia. }
  assert (H : forall k, (k <= m)%nat ->
    (2 * length (flat_map row (map Z.of_nat (seq 0 k)))
     + (m - k) * (m - k - 1) = m * (m - 1))%nat).
  { induction k as [|k IH]; intros Hk.
    - simpl. f_equal; lia.
    - rewrite seq_S, map_app, flat_map_app, length_app. simpl.
      rewrite app_nil_r, Hrow.
      specialize (IH ltac:(lia)).
      replace (m - k)%nat with (S (m - S k)) in IH by lia.
      replace (S (m - S k) - 1)%nat with (m - S k)%nat in IH by lia.
      nia. }
  specialize (H m (le_n m)). replace (m - m)%nat with 0%nat in H by lia. lia.
Qed.

Lemma length_pairs (n : Z) : 0 <= n -> Z.of_nat (length (pairs n)) = rounds n.
Proof.
  intros Hn. unfold rounds.
  pose proof (length_pairs_nat (Z.to_nat n)) as H. rewrite Z2Nat.id in H by lia.
  apply Z.div_unique_exact; [lia|].
  destruct (Z.eq_dec n 0) as [->|Hn0]; [simpl in *; lia|].
  replace (n * (n - 1)) with (Z.of_nat (Z.to_nat n * (Z.to_nat n - 1))) by nia.
  rewrite <- H. lia.
Qed.


Lemma rounds_pos (n : Z) : 2 <= n -> 1 <= rounds n.
Proof.
  intros Hn. unfold rounds.
  apply Z.div_le_lower_bound; [lia|]. nia.
Qed.

(** ** What the loops over [model.Add] and [model.NewBoolVar] leave in the model *)

Lemma fold_left_pointwise {A B : Type} (f g : A -> B -> A) (l : list B) (a : A) :
  (forall a b, f a b = g a b) -> fold_left f l a = fold_left g l a.
Proof.
  intros Hfg. revert a. induction l as [|b l IH]; intros a; simpl; [reflexivity|].
  now rewrite Hfg, IH.
Qed.

Lemma map_flat_map {A B C : Type} (g : B -> C) (f : A -> list B) (l : list A) :
  map g (flat_map f l) = flat_map (fun a => map g (f a)) l.
Proof.
  induction l as [|a l IH]; simpl; [reflexivity|]. now rewrite map_app, IH.
Qed.

Lemma constraints_fold_Add {A : Type} (f : A -> BoundedLinearExpression)
      (l : list A) (m : CpModel) :
  constraints (fold_left (fun m a => Add m (f a)) l m) = constraints m ++ map f l
  /\ bool_vars (fold_left (fun m a => Add m (f a)) l m) = bool_vars m.
Proof.
  revert m. induction l as [|a l IH]; intros m; simpl.
  - now rewrite app_nil_r.
  - destruct (IH (Add m (f a))) as [-> ->]. simpl. now rewrite <- app_assoc.
Qed.

Lemma constraints_fold_Add2 {A B : Type} (f : A -> B -> BoundedLinearExpression)
      (inner : list B) (l : list A) (m : CpModel) :
  constraints (fold_left (fun m a => fold_left (fun m b => Add m (f a b)) inner m) l m)
  = constraints m ++ flat_map (fun a => map (f a) inner) l
  /\ bool_vars (fold_left (fun m a => fold_left (fun m b => Add m (f a b)) inner m) l m)
     = bool_vars m.
Proof.
  revert m. induction l as [|a l IH]; intros m; simpl.
  - now rewrite app_nil_r.
  - destruct (IH (fold_left (fun m b => Add m (f a b)) inner m)) as [-> ->].
    destruct (constraints_fold_Add (f a) inner m) as [-> ->].
    now rewrite <- app_assoc.
Qed.

Lemma vars_fold_NewBoolVar {A : Type} (f : A -> BoolVar) (l : list A) (m : CpModel) :
  bool_vars (fold_left (fun m a => NewBoolVar m (f a)) l m) = bool_vars m ++ map f l
  /\ constraints (fold_left (fun m a => NewBoolVar m (f a)) l m) = constraints m.
Proof.
  revert m. induction l as [|a l IH]; intros m; simpl.
  - now rewrite app_nil_r.
  - destruct (IH (NewBoolVar m (f a))) as [-> ->]. simpl. now rewrite <- app_assoc.
Qed.

Lemma vars_fold_NewBoolVar2 {A B : Type} (f : A -> B -> BoolVar)
      (inner : list B) (l : list A) (m : CpModel) :
  bool_vars (fold_left (fun m a => fold_left (fun m b => NewBoolVar m (f a b)) inner m) l m)
  = bool_vars m ++ flat_map (fun a => map (f a) inner) l
  /\ constraints
       (fold_left (fun m a => fold_left (fun m b => NewBoolVar m (f a b)) inner m) l m)
     = constraints m.
Proof.
  revert m. induction l as [|a l IH]; intros m; simpl.
  - now rewrite app_nil_r.
  - destruct (IH (fold_left (fun m b => NewBoolVar m (f a b)) inner m)) as [-> ->].
    destruct (vars_fold_NewBoolVar (f a) inner m) as [-> ->].
    now rewrite <- app_assoc.
Qed.

Lemma declare_variables_spec (n : Z) :
  bool_vars (declare_variables n empty_model)
  = map snd (x_items n) ++ map snd (y_items n)
  /\ constraints (declare_variables n empty_model) = [].
Proof.
  unfold declare_variables.
  set (m1 := fold_left _ (pairs n) empty_model).
  assert (H1 : bool_vars m1
               = flat_map (fun ij => map (fun r => X (fst ij) (snd ij) r)
                                         (range (rounds n))) (pairs n)
               /\ constraints m1 = []).
  { pose proof (vars_fold_NewBoolVar2 (fun ij r => X (fst ij) (snd ij) r)
                  (range (rounds n)) (pairs n) empty_model) as [Hv Hc].
    subst m1. simpl in Hv, Hc.
    rewrite (fold_left_pointwise _
               (fun m ij => fold_left (fun m r => NewBoolVar m (X (fst ij) (snd ij) r))
                                      (range (rounds n)) m)).
    - now split.
    - intros m [i j]. reflexivity. }
  destruct H1 as [Hv1 Hc1].
  destruct (vars_fold_NewBoolVar2 (fun i r => Y i r) (range (rounds n)) (range n) m1)
    as [-> ->].
  split; [|assumption]. rewrite Hv1. f_equal.
  - unfold x_items. rewrite map_flat_map. apply flat_map_ext. intros [i j].
    now rewrite map_map.
  - unfold y_items. rewrite map_flat_map. apply flat_map_ext. intros i.
    now rewrite map_map.
Qed.

Lemma build_model_constraints (n T : Z) :
  constraints (build_model n T)
  = match_once_constraints n ++ one_per_round_constraints n
    ++ linkage_constraints n ++ window_constraints n T.
Proof.
  unfold build_model, post_constraints.
  destruct (declare_variables_spec n) as [_ Hc0].
  set (m0 := declare_variables n empty_model) in *.
  destruct (constraints_fold_Add (match_once n) (pairs n) m0) as [H1 _].
  set (m1 := fold_left _ (pairs n) m0) in *.
  destruct (constraints_fold_Add (one_per_round n) (range (rounds n)) m1) as [H2 _].
  set (m2 := fold_left _ (range (rounds n)) m1) in *.
  destruct (constraints_fold_Add2 (linkage n) (range (rounds n)) (range n) m2) as [H3 _].
  set (m3 := fold_left _ (range n) m2) in *.
  destruct (constraints_fold_Add2 (window T) (range (rounds n - T)) (range n) m3)
    as [H4 _].
  rewrite H4, H3, H2, H1, Hc0. simpl.
  unfold match_once_constraints, one_per_round_constraints, linkage_constraints,
    window_constraints.
  now rewrite <- !app_assoc.
Qed.

Lemma build_model_vars (n T : Z) :
  bool_vars (build_model n T) = map snd (x_items n) ++ map snd (y_items n).
Proof.
  unfold build_model, post_constraints.
  destruct (declare_variables_spec n) as [Hv0 _].
  set (m0 := declare_variables n empty_model) in *.
  destruct (constraints_fold_Add (match_once n) (pairs n) m0) as [_ H1].
  set (m1 := fold_left _ (pairs n) m0) in *.
  destruct (constraints_fold_Add (one_per_round n) (range (rounds n)) m1) as [_ H2].
  set (m2 := fold_left _ (range (rounds n)) m1) in *.
  destruct (constraints_fold_Add2 (linkage n) (range (rounds n)) (range n) m2) as [_ H3].
  set (m3 := fold_left _ (range n) m2) in *.
  destruct (constraints_fold_Add2 (window T) (range (rounds n - T)) (range n) m3)
    as [_ H4].
  now rewrite H4, H3, H2, H1, Hv0.
Qed.

(** ** Meaning of the constraints *)

Lemma sum_vars_count (a : assignment) (vs : list BoolVar) :
  sum_vars a vs = Z.of_nat (length (filter a vs)).
Proof.
  induction vs as [|v vs IH]; simpl; [reflexivity|].
  rewrite IH. destruct (a v); cbn [Z.b2z length]; lia.
Qed.

Lemma filter_map_comm {A B : Type} (p : B -> bool) (f : A -> B) (l : list A) :
  filter p (map f l) = map f (filter (fun u => p (f u)) l).
Proof.
  induction l as [|u l IH]; simpl; [reflexivity|].
  destruct (p (f u)); simpl; now rewrite IH.
Qed.

Lemma sum_vars_map {A : Type} (a : assignment) (f : A -> BoolVar) (l : list A) :
  sum_vars a (map f l) = Z.of_nat (length (filter (fun u => a (f u)) l)).
Proof.
  now rewrite sum_vars_count, filter_map_comm, length_map.
Qed.

Lemma sum_vars_ge_1 (a : assignment) (vs : list BoolVar) :
  sum_vars a vs >= 1 <-> exists v, In v vs /\ a v = true.
Proof.
  rewrite sum_vars_count. split.
  - intros H. destruct (filter a vs) as [|v l] eqn:E; [simpl in H; lia|].
    exists v. apply filter_In. rewrite E. now left.
  - intros (v & Hin & Hv).
    assert (Hf : In v (filter a vs)) by (now apply filter_In).
    destruct (filter a vs); [contradiction|]. simpl. lia.
Qed.

Lemma length_1_singleton {A : Type} (l : list A) :
  length l = 1%nat -> exists u, l = [u].
Proof.
  destruct l as [|u [|v l]]; simpl; intros H; try discriminate. now exists u.
Qed.

Lemma holdsb_iff (a : assignment) (c : BoundedLinearExpression) :
  holdsb a c = true <-> holds a c.
Proof.
  unfold holdsb, holds. destruct (rel c).
  - apply Z.eqb_eq.
  - rewrite Z.geb_le. lia.
Qed.

Lemma satisfiesb_iff (a : assignment) (model : CpModel) :
  satisfiesb a model = true <-> satisfies a model.
Proof.
  unfold satisfiesb, satisfies. rewrite forallb_forall, Forall_forall.
  split; intros H c Hc; apply holdsb_iff; auto.
Qed.

Lemma satisfies_families (a : assignment) (n T : Z) :
  satisfies a (build_model n T) <->
  Forall (holds a) (match_once_constraints n)
  /\ Forall (holds a) (one_per_round_constraints n)
  /\ Forall (holds a) (linkage_constraints n)
  /\ Forall (holds a) (window_constraints n T).
Proof.
  unfold satisfies. rewrite build_model_constraints, !Forall_app. tauto.
Qed.

Lemma holds_match_once (a : assignment) (n T i j : Z) :
  satisfies a (build_model n T) -> In (i, j) (pairs n) ->
  length (filter (fun r => a (X i j r)) (range (rounds n))) = 1%nat.
Proof.
  intros Hsat Hin. apply satisfies_families in Hsat as (H1 & _).
  rewrite Forall_forall in H1.
  specialize (H1 (match_once n (i, j))
                 (in_map (match_once n) _ _ Hin)).
  unfold holds in H1. simpl in H1. rewrite sum_vars_map in H1. lia.
Qed.

Lemma holds_one_per_round (a : assignment) (n T r : Z) :
  satisfies a (build_model n T) -> 0 <= r < rounds n ->
  length (filter (fun ij => a (X (fst ij) (snd ij) r)) (pairs n)) = 1%nat.
Proof.
  intros Hsat Hr. apply satisfies_families in Hsat as (_ & H2 & _).
  rewrite Forall_forall in H2.
  assert (Hin : In r (range (rounds n))) by (now apply in_range).
  specialize (H2 (one_per_round n r) (in_map (one_per_round n) _ _ Hin)).
  unfold holds in H2. simpl in H2. rewrite sum_vars_map in H2.
  rewrite (filter_ext _ (fun ij => a (X (fst ij) (snd ij) r))) in H2
    by (now intros [u v]).
  lia.
Qed.

Lemma in_linkage_constraints (n p r : Z) :
  0 <= p < n -> 0 <= r < rounds n ->
  In (linkage n p r) (linkage_constraints n).
Proof.
  intros Hp Hr. unfold linkage_constraints. apply in_flat_map.
  exists p. split; [now apply in_range|]. apply in_map. now apply in_range.
Qed.

Lemma in_window_constraints (n T p start : Z) :
  0 <= p < n -> 0 <= start < rounds n - T ->
  In (window T p start) (window_constraints n T).
Proof.
  intros Hp Hs. unfold window_constraints. apply in_flat_map.
  exists p. split; [now apply in_range|]. apply in_map. now apply in_range.
Qed.

Lemma in_build_model (n T : Z) (c : BoundedLinearExpression) :
  In c (constraints (build_model n T)) <->
  In c (match_once_constraints n) \/ In c (one_per_round_constraints n)
  \/ In c (linkage_constraints n) \/ In c (window_constraints n T).
Proof.
  rewrite build_model_constraints, !in_app_iff. tauto.
Qed.

Lemma in_x_vars (n i j r : Z) :
  In (X i j r) (map snd (x_items n)) <-> In (i, j) (pairs n) /\ 0 <= r < rounds n.
Proof.
  unfold x_items. rewrite map_flat_map, in_flat_map. split.
  - intros ([i' j'] & Hin & Hv). rewrite map_map in Hv.
    apply in_map_iff in Hv as (r' & Heq & Hr). simpl in Heq. inversion Heq; subst.
    apply in_range in Hr. auto.
  - intros [Hin Hr]. exists (i, j). split; [assumption|]. rewrite map_map.
    apply in_map_iff. exists r. split; [reflexivity|]. now apply in_range.
Qed.

Lemma in_y_vars (n i r : Z) :
  In (Y i r) (map snd (y_items n)) <-> 0 <= i < n /\ 0 <= r < rounds n.
Proof.
  unfold y_items. rewrite map_flat_map, in_flat_map. split.
  - intros (i' & Hin & Hv). rewrite map_map in Hv.
    apply in_map_iff in Hv as (r' & Heq & Hr). simpl in Heq. inversion Heq; subst.
    apply in_range in Hin. apply in_range in Hr. auto.
  - intros [Hi Hr]. exists i. split; [now apply in_range|]. rewrite map_map.
    apply in_map_iff. exists r. split; [reflexivity|]. now apply in_range.
Qed.

(** Every variable a constraint mentions was declared: the dictionary
    lookups [x[(i, j, r)]] and [y[(i, r)]] of lines 33-51 hit existing
    keys. *)
Lemma lookups_succeed (n T : Z) (c : BoundedLinearExpression) (v : BoolVar) :
  In c (constraints (build_model n T)) ->
  In v (terms c) \/ bound c = Var v ->
  In v (bool_vars (build_model n T)).
Proof.
  rewrite build_model_vars, in_build_model, in_app_iff.
  intros [Hc|[Hc|[Hc|Hc]]] Hv.
  - apply in_map_iff in Hc as ([i j] & <- & Hij). simpl in Hv.
    destruct Hv as [Hv|Hv]; [|discriminate].
    apply in_map_iff in Hv as (r & <- & Hr). apply in_range in Hr.
    left. now apply in_x_vars.
  - apply in_map_iff in Hc as (r & <- & Hr). apply in_range in Hr. simpl in Hv.
    destruct Hv as [Hv|Hv]; [|discriminate].
    apply in_map_iff in Hv as ([i j] & <- & Hij). left. now apply in_x_vars.
  - apply in_flat_map in Hc as (i & Hi & Hc).
    apply in_map_iff in Hc as (r & <- & Hr).
    apply in_range in Hi. apply in_range in Hr. simpl in Hv.
    destruct Hv as [Hv|Hv].
    + apply in_map_iff in Hv as ([a b] & <- & Hab). apply filter_In in Hab as [Hab _].
      left. now apply in_x_vars.
    + inversion Hv; subst. right. now apply in_y_vars.
  - apply in_flat_map in Hc as (i & Hi & Hc).
    apply in_map_iff in Hc as (start & <- & Hs).
    apply in_range in Hi. apply in_range in Hs. simpl in Hv.
    destruct Hv as [Hv|Hv]; [|discriminate].
    apply in_map_iff in Hv as (s0 & <- & Hs0). apply in_range in Hs0.
    right. apply in_y_vars. lia.
Qed.

(** ** [sorted] *)

Lemma triple_le_total (s t : triple) : triple_leb s t = false -> triple_le t s.
Proof.
  destruct s as [[r1 a1] b1], t as [[r2 a2] b2]. unfold triple_le, triple_leb.
  intros H.
  destruct (Z.ltb_spec r1 r2), (Z.eqb_spec r1 r2), (Z.ltb_spec a1 a2),
    (Z.eqb_spec a1 a2), (Z.leb_spec b1 b2); simpl in H; try discriminate;
    destruct (Z.ltb_spec r2 r1), (Z.eqb_spec r2 r1), (Z.ltb_spec a2 a1),
    (Z.eqb_spec a2 a1), (Z.leb_spec b2 b1); simpl; try reflexivity; lia.
Qed.

Lemma triple_le_trans (s t u : triple) :
  triple_le s t -> triple_le t u -> triple_le s u.
Proof.
  destruct s as [[r1 a1] b1], t as [[r2 a2] b2], u as [[r3 a3] b3].
  unfold triple_le, triple_leb. intros H1 H2.
  destruct (Z.ltb_spec r1 r2), (Z.eqb_spec r1 r2), (Z.ltb_spec a1 a2),
    (Z.eqb_spec a1 a2), (Z.leb_spec b1 b2); simpl in H1; try discriminate;
    destruct (Z.ltb_spec r2 r3), (Z.eqb_spec r2 r3), (Z.ltb_spec a2 a3),
    (Z.eqb_spec a2 a3), (Z.leb_spec b2 b3); simpl in H2; try discriminate;
    destruct (Z.ltb_spec r1 r3), (Z.eqb_spec r1 r3), (Z.ltb_spec a1 a3),
    (Z.eqb_spec a1 a3), (Z.leb_spec b1 b3); simpl; try reflexivity; lia.
Qed.

Lemma insert_sorted_perm (t : triple) (l : list triple) :
  Permutation (insert_sorted t l) (t :: l).
Proof.
  induction l as [|u l IH]; simpl; [reflexivity|].
  destruct (triple_leb u t); [|reflexivity].
  rewrite IH. apply perm_swap.
Qed.

Lemma sorted_perm_acc (l acc : list triple) :
  Permutation (fold_left (fun acc t => insert_sorted t acc) l acc) (acc ++ l).
Proof.
  revert acc. induction l as [|t l IH]; intros acc; simpl.
  - now rewrite app_nil_r.
  - rewrite IH, insert_sorted_perm. apply Permutation_middle.
Qed.

Lemma sorted_perm (l : list triple) : Permutation (sorted l) l.
Proof. apply (sorted_perm_acc l []). Qed.

Lemma insert_sorted_sorted (t : triple) (l : list triple) :
  StronglySorted triple_le l -> StronglySorted triple_le (insert_sorted t l).
Proof.
  induction 1 as [|u l Hl IH Hu]; simpl.
  - repeat constructor.
  - destruct (triple_leb u t) eqn:E.
    + constructor; [assumption|].
      apply (Permutation_Forall (Permutation_sym (insert_sorted_perm t l))).
      constructor; assumption.
    + apply triple_le_total in E. constructor.
      * now constructor.
      * constructor; [assumption|].
        eapply Forall_impl; [|exact Hu]. intros v Hv.
        eapply triple_le_trans; eassumption.
Qed.

Lemma sorted_sorted (l : list triple) : StronglySorted triple_le (sorted l).
Proof.
  unfold sorted.
  assert (H : forall acc, StronglySorted triple_le acc ->
            StronglySorted triple_le (fold_left (fun acc t => insert_sorted t acc) l acc)).
  { induction l as [|t l IH]; intros acc Hacc; simpl; [assumption|].
    apply IH. now apply insert_sorted_sorted. }
  apply H. constructor.
Qed.

(** ** The extracted schedule *)

Lemma filter_flat_map {A B : Type} (p : B -> bool) (f : A -> list B) (l : list A) :
  filter p (flat_map f l) = flat_map (fun u => filter p (f u)) l.
Proof.
  induction l as [|u l IH]; simpl; [reflexivity|]. now rewrite filter_app, IH.
Qed.

Lemma extract_schedule_flat (n : Z) (a : assignment) :
  extract_schedule n a
  = flat_map (fun ij => map (fun r => (r + 1, fst ij + 1, snd ij + 1))
                            (filter (fun r => a (X (fst ij) (snd ij) r))
                                    (range (rounds n))))
             (pairs n).
Proof.
  unfold extract_schedule, x_items.
  rewrite filter_flat_map, map_flat_map. apply flat_map_ext. intros [i j].
  rewrite filter_map_comm, map_map. reflexivity.
Qed.

Lemma flat_map_singleton {A B : Type} (f : A -> list B) (g : A -> B) (l : list A) :
  (forall u, In u l -> f u = [g u]) -> flat_map f l = map g l.
Proof.
  induction l as [|u l IH]; simpl; intros H; [reflexivity|].
  rewrite H by now left. simpl. f_equal. apply IH. intros v Hv. apply H. now right.
Qed.

Lemma round_of_spec (n T : Z) (a : assignment) (i j : Z) :
  satisfies a (build_model n T) -> In (i, j) (pairs n) ->
  filter (fun r => a (X i j r)) (range (rounds n)) = [round_of n a (i, j)].
Proof.
  intros Hsat Hin. unfold round_of. simpl.
  destruct (length_1_singleton _ (holds_match_once a n T i j Hsat Hin)) as (r & ->).
  reflexivity.
Qed.

Lemma round_of_played (n T : Z) (a : assignment) (i j : Z) :
  satisfies a (build_model n T) -> In (i, j) (pairs n) ->
  0 <= round_of n a (i, j) < rounds n /\ a (X i j (round_of n a (i, j))) = true.
Proof.
  intros Hsat Hin.
  assert (H : In (round_of n a (i, j))
                 (filter (fun r => a (X i j r)) (range (rounds n)))).
  { rewrite (round_of_spec n T a i j Hsat Hin). now left. }
  apply filter_In in H as [H1 H2]. apply in_range in H1. auto.
Qed.

Lemma round_of_unique (n T : Z) (a : assignment) (i j r : Z) :
  satisfies a (build_model n T) -> In (i, j) (pairs n) ->
  0 <= r < rounds n -> a (X i j r) = true -> r = round_of n a (i, j).
Proof.
  intros Hsat Hin Hr Ha.
  assert (H : In r (filter (fun r => a (X i j r)) (range (rounds n)))).
  { apply filter_In. split; [now apply in_range|assumption]. }
  rewrite (round_of_spec n T a i j Hsat Hin) in H.
  destruct H as [H|[]]. now symmetry.
Qed.

Lemma extract_schedule_sat (n T : Z) (a : assignment) :
  satisfies a (build_model n T) ->
  extract_schedule n a
  = map (fun ij => (round_of n a ij + 1, fst ij + 1, snd ij + 1)) (pairs n).
Proof.
  intros Hsat. rewrite extract_schedule_flat. apply flat_map_singleton.
  intros [i j] Hin. simpl.
  now rewrite (round_of_spec n T a i j Hsat Hin).
Qed.

Lemma extract_matches (n T : Z) (a : assignment) :
  satisfies a (build_model n T) ->
  map entry_match (extract_schedule n a)
  = map (fun ij => (fst ij + 1, snd ij + 1)) (pairs n).
Proof.
  intros Hsat. rewrite (extract_schedule_sat n T a Hsat), map_map. reflexivity.
Qed.

Lemma extract_matches_NoDup (n T : Z) (a : assignment) :
  satisfies a (build_model n T) ->
  NoDup (map entry_match (extract_schedule n a)).
Proof.
  intros Hsat. rewrite (extract_matches n T a Hsat).
  apply Injective_map_NoDup'; [|apply NoDup_pairs].
  intros [i j] [i' j']. simpl. intros H. inversion H. f_equal; lia.
Qed.

Lemma extract_rounds (n T : Z) (a : assignment) :
  0 <= n -> satisfies a (build_model n T) ->
  Permutation (map (fun r => r + 1) (range (rounds n)))
              (map entry_round (extract_schedule n a)).
Proof.
  intros Hn Hsat. apply NoDup_Permutation_bis.
  - apply Injective_map_NoDup'; [intros u v; lia|apply NoDup_range].
  - rewrite !length_map, (extract_schedule_sat n T a Hsat), length_map, length_range.
    pose proof (length_pairs n Hn). lia.
  - intros r' Hr'. apply in_map_iff in Hr' as (r & <- & Hr). apply in_range in Hr.
    destruct (length_1_singleton _ (holds_one_per_round a n T r Hsat Hr))
      as ([i j] & Hij).
    assert (Hin : In (i, j) (filter (fun ij => a (X (fst ij) (snd ij) r)) (pairs n)))
      by (rewrite Hij; now left).
    apply filter_In in Hin as [Hp Ha]. simpl in Ha.
    rewrite (extract_schedule_sat n T a Hsat), map_map.
    apply in_map_iff. exists (i, j). split; [|assumption]. unfold entry_round. simpl.
    now rewrite <- (round_of_unique n T a i j r Hsat Hp Hr Ha).
Qed.

Lemma NoDup_map_inj {A B : Type} (f : A -> B) (l : list A) (u v : A) :
  NoDup (map f l) -> In u l -> In v l -> f u = f v -> u = v.
Proof.
  induction l as [|w l IH]; simpl; [contradiction|].
  intros Hnd Hu Hv Huv. inversion Hnd as [|? ? Hnot Hnd']; subst.
  destruct Hu as [->|Hu], Hv as [->|Hv]; auto.
  - exfalso. apply Hnot. rewrite Huv. now apply in_map.
  - exfalso. apply Hnot. rewrite <- Huv. now apply in_map.
Qed.

Lemma in_extract_schedule (n T : Z) (a : assignment) (e : triple) :
  satisfies a (build_model n T) ->
  In e (extract_schedule n a) <->
  exists i j, 0 <= i < j /\ j < n
              /\ e = (round_of n a (i, j) + 1, i + 1, j + 1).
Proof.
  intros Hsat. rewrite (extract_schedule_sat n T a Hsat), in_map_iff. split.
  - intros ([i j] & <- & Hin). exists i, j. split; [|split]; try reflexivity;
      apply in_pairs in Hin; lia.
  - intros (i & j & Hij & Hj & ->). exists (i, j). split; [reflexivity|].
    apply in_pairs. lia.
Qed.

(** ** The loop over the candidate bounds *)

Lemma range2_cons (a b : Z) : a < b -> range2 a b = a :: range2 (a + 1) b.
Proof.
  intros Hab. unfold range2.
  replace (Z.to_nat (b - a)) with (S (Z.to_nat (b - (a + 1)))) by lia.
  cbn [seq map]. f_equal; [lia|].
  rewrite <- seq_shift, map_map. apply map_ext. intros k. lia.
Qed.

Lemma range2_nil (a b : Z) : b <= a -> range2 a b = [].
Proof.
  intros Hab. unfold range2. now replace (Z.to_nat (b - a)) with 0%nat by lia.
Qed.

Lemma range_range2 (k : Z) : range k = range2 0 k.
Proof.
  unfold range, range2. rewrite Z.sub_0_r. apply map_ext. intros u. lia.
Qed.

Lemma range2_split (a b T : Z) (pre post : list Z) :
  range2 a b = pre ++ T :: post -> pre = range2 a T /\ a <= T < b.
Proof.
  revert a. induction pre as [|u pre IH]; intros a H.
  - destruct (Z_lt_ge_dec a b) as [Hab|Hab].
    + rewrite range2_cons in H by assumption. inversion H; subst.
      rewrite range2_nil by lia. split; [reflexivity|lia].
    + rewrite range2_nil in H by lia. discriminate.
  - destruct (Z_lt_ge_dec a b) as [Hab|Hab].
    + rewrite range2_cons in H by assumption. inversion H; subst.
      match goal with Hr : range2 _ _ = _ |- _ => destruct (IH _ Hr) as [Hpre HT] end.
      rewrite (range2_cons u T) by lia. split; [now f_equal|lia].
    + rewrite range2_nil in H by lia. discriminate.
Qed.

Lemma map_seq_offset {A : Type} (f : nat -> A) (s q : nat) :
  map f (seq s q) = map (fun k => f (s + k)%nat) (seq 0 q).
Proof.
  revert s f. induction q as [|q IH]; intros s f; [reflexivity|].
  cbn [seq map]. f_equal; [f_equal; lia|].
  rewrite (IH (S s) f), (IH 1%nat (fun k => f (s + k)%nat)).
  apply map_ext. intros k. f_equal. lia.
Qed.

Lemma range2_app (a T b : Z) :
  a <= T <= b -> range2 a b = range2 a T ++ range2 T b.
Proof.
  intros H. unfold range2.
  replace (Z.to_nat (b - a)) with (Z.to_nat (T - a) + Z.to_nat (b - T))%nat by lia.
  rewrite seq_app, map_app. f_equal.
  rewrite map_seq_offset. apply map_ext. intros k. lia.
Qed.

Section SearchFacts.

Context {seconds : Type}.
Variable Solve : CpModel -> SatParameters seconds -> CpSolverStatus * assignment.
Variables (n : Z) (time_limit_s : option seconds) (num_workers : Z).

Local Notation "'status'" := (status_at Solve n time_limit_s num_workers) (only parsing).
Local Notation "'value'" := (value_at Solve n time_limit_s num_workers) (only parsing).
Local Notation "'call'" := (call_at n time_limit_s num_workers) (only parsing).
Local Notation "'loop'" := (for_T Solve n time_limit_s num_workers) (only parsing).

(** One turn of the loop. *)
Lemma for_T_step (T : Z) (Ts : list Z) (calls : list (solver_call seconds)) :
  loop (T :: Ts) calls
  = if reports_solution (status T)
    then (calls ++ [call T], Some (T, sorted (extract_schedule n (value T))))
    else loop Ts (calls ++ [call T]).
Proof.
  unfold status_at, value_at, answer_at, call_at.
  cbn [for_T].
  destruct (Solve (build_model n T) (solver_parameters time_limit_s num_workers))
    as [st v].
  reflexivity.
Qed.

(** Bounds without reported solution are passed over, each after one
    invocation. *)
Lemma for_T_skip (pre Ts : list Z) (calls : list (solver_call seconds)) :
  Forall (fun T => reports_solution (status T) = false) pre ->
  loop (pre ++ Ts) calls = loop Ts (calls ++ map call pre).
Proof.
  intros H. revert calls. induction H as [|T pre HT Hpre IH]; intros calls.
  - simpl. now rewrite app_nil_r.
  - cbn [app]. rewrite for_T_step, HT, IH. cbn [map].
    now rewrite <- app_assoc.
Qed.

Lemma for_T_none (Ts : list Z) (calls : list (solver_call seconds)) :
  Forall (fun T => reports_solution (status T) = false) Ts ->
  loop Ts calls = (calls ++ map call Ts, None).
Proof.
  intros H. rewrite <- (app_nil_r Ts) at 1. now rewrite for_T_skip.
Qed.

Lemma for_T_first (pre post : list Z) (T : Z) (calls : list (solver_call seconds)) :
  Forall (fun T => reports_solution (status T) = false) pre ->
  reports_solution (status T) = true ->
  loop (pre ++ T :: post) calls
  = (calls ++ map call (pre ++ [T]),
     Some (T, sorted (extract_schedule n (value T)))).
Proof.
  intros Hpre HT. rewrite for_T_skip by assumption.
  rewrite for_T_step, HT, map_app, app_assoc. reflexivity.
Qed.

(** The loop either stops at the first bound with a reported solution or
    runs through the whole list. *)
Lemma for_T_cases (Ts : list Z) (calls : list (solver_call seconds)) :
  (exists pre T post,
      Ts = pre ++ T :: post
      /\ Forall (fun T => reports_solution (status T) = false) pre
      /\ reports_solution (status T) = true)
  \/ Forall (fun T => reports_solution (status T) = false) Ts.
Proof.
  induction Ts as [|T Ts IH].
  - right. constructor.
  - destruct (reports_solution (status T)) eqn:E.
    + left. exists [], T, Ts. repeat split; auto.
    + destruct IH as [(pre & T' & post & -> & Hpre & HT')|Hall].
      * left. exists (T :: pre), T', post. repeat split; auto.
      * right. now constructor.
Qed.

Lemma run_first_solution (T : Z) :
  0 <= T < rounds n ->
  reports_solution (status T) = true ->
  (forall T', 0 <= T' < T -> reports_solution (status T') = false) ->
  schedule_round_robin_run Solve n time_limit_s num_workers
  = (map call (range (T + 1)),
     Some (T, sorted (extract_schedule n (value T)))).
Proof.
  intros HT Hsol Hbefore. unfold schedule_round_robin_run.
  rewrite range_range2, (range2_app 0 T (rounds n)) by lia.
  rewrite (range2_cons T) by lia.
  rewrite for_T_first; auto.
  - cbn [app]. rewrite range_range2, (range2_app 0 T (T + 1)) by lia.
    rewrite (range2_cons T (T + 1)) by lia.
    rewrite (range2_nil (T + 1) (T + 1)) by lia. reflexivity.
  - apply Forall_forall. intros T' HT'. apply in_range2 in HT'. now apply Hbefore.
Qed.

Lemma run_no_solution :
  (forall T, 0 <= T < rounds n -> reports_solution (status T) = false) ->
  schedule_round_robin_run Solve n time_limit_s num_workers
  = (map call (range (rounds n)), None).
Proof.
  intros H. unfold schedule_round_robin_run.
  rewrite for_T_none; [reflexivity|].
  apply Forall_forall. intros T HT. apply in_range in HT. now apply H.
Qed.

(** The run is one of the two above. *)
Lemma run_cases :
  (exists T, 0 <= T < rounds n
             /\ reports_solution (status T) = true
             /\ (forall T', 0 <= T' < T -> reports_solution (status T') = false)
             /\ schedule_round_robin_run Solve n time_limit_s num_workers
                = (map call (range (T + 1)),
                   Some (T, sorted (extract_schedule n (value T)))))
  \/ ((forall T, 0 <= T < rounds n -> reports_solution (status T) = false)
      /\ schedule_round_robin_run Solve n time_limit_s num_workers
         = (map call (range (rounds n)), None)).
Proof.
  destruct (for_T_cases (range (rounds n)) [])
    as [(pre & T & post & Hsplit & Hpre & HT)|Hall].
  - left. rewrite range_range2 in Hsplit.
    destruct (range2_split _ _ _ _ _ Hsplit) as [-> HTr].
    assert (Hbefore : forall T', 0 <= T' < T -> reports_solution (status T') = false).
    { intros T' HT'. rewrite Forall_forall in Hpre. apply Hpre. now apply in_range2. }
    exists T. repeat split; try lia; auto. now apply run_first_solution.
  - right. rewrite Forall_forall in Hall.
    assert (H : forall T, 0 <= T < rounds n -> reports_solution (status T) = false).
    { intros T HT. apply Hall. now apply in_range. }
    split; [assumption|]. now apply run_no_solution.
Qed.

End SearchFacts.

(** ** The encoder's constraints *)

Lemma involves_iff (p : Z) (ab : Z * Z) :
  involves p ab = true <-> fst ab = p \/ snd ab = p.
Proof.
  destruct ab as [a b]. unfold involves. simpl.
  rewrite orb_true_iff, !Z.eqb_eq. tauto.
Qed.

(** In a solution, [y[p, r]] is true exactly when a match of [p] is played
    in round [r]. *)
Lemma linkage_meaning (a : assignment) (n T p r : Z) :
  satisfies a (build_model n T) -> 0 <= p < n -> 0 <= r < rounds n ->
  (a (Y p r) = true <->
   exists i j, In (i, j) (pairs n) /\ (i = p \/ j = p) /\ a (X i j r) = true).
Proof.
  intros Hsat Hp Hr. apply satisfies_families in Hsat as (_ & _ & H3 & _).
  rewrite Forall_forall in H3.
  specialize (H3 _ (in_linkage_constraints n p r Hp Hr)).
  unfold holds in H3. cbn [rel terms bound linkage bound_value] in H3.
  split.
  - intros Hy. rewrite Hy in H3. cbn [Z.b2z] in H3.
    assert (Hge : sum_vars a (map (fun '(a0, b) => X a0 b r)
                                  (filter (involves p) (pairs n))) >= 1) by lia.
    apply sum_vars_ge_1 in Hge as (v & Hv & Hav).
    apply in_map_iff in Hv as ([i j] & <- & Hij).
    apply filter_In in Hij as [Hin Hinv]. apply involves_iff in Hinv.
    exists i, j. auto.
  - intros (i & j & Hin & Hinv & Hx).
    assert (Hge : sum_vars a (map (fun '(a0, b) => X a0 b r)
                                  (filter (involves p) (pairs n))) >= 1).
    { apply sum_vars_ge_1. exists (X i j r). split; [|assumption].
      apply in_map_iff. exists (i, j). split; [reflexivity|].
      apply filter_In. split; [assumption|]. now apply involves_iff. }
    destruct (a (Y p r)); [reflexivity|]. cbn [Z.b2z] in H3. lia.
Qed.

(** In a solution, every window of T+1 rounds has a round with [y[p, r]]. *)
Lemma window_meaning (a : assignment) (n T p start : Z) :
  Forall (holds a) (window_constraints n T) ->
  0 <= p < n -> 0 <= start < rounds n - T ->
  exists r, start <= r <= start + T /\ a (Y p r) = true.
Proof.
  intros H4 Hp Hs. rewrite Forall_forall in H4.
  specialize (H4 _ (in_window_constraints n T p start Hp Hs)).
  unfold holds in H4. cbn [rel terms bound window bound_value] in H4.
  apply sum_vars_ge_1 in H4 as (v & Hv & Hav).
  apply in_map_iff in Hv as (s & <- & Hs'). apply in_range in Hs'.
  exists (start + s). split; [lia|assumption].
Qed.

Lemma windows_monotone (a : assignment) (n T T' : Z) :
  0 <= T <= T' ->
  Forall (holds a) (window_constraints n T) ->
  Forall (holds a) (window_constraints n T').
Proof.
  intros HT H4. apply Forall_forall. intros c Hc.
  unfold window_constraints in Hc. apply in_flat_map in Hc as (p & Hp & Hc).
  apply in_map_iff in Hc as (start & <- & Hs).
  apply in_range in Hp. apply in_range in Hs.
  destruct (window_meaning a n T p start H4 Hp ltac:(lia)) as (r & Hr & Hy).
  unfold holds. cbn [rel terms bound window bound_value].
  apply sum_vars_ge_1. exists (Y p r). split; [|assumption].
  apply in_map_iff. exists (r - start). split; [f_equal; lia|].
  apply in_range. lia.
Qed.

(** C2: for 0 <= T < M the model holds, for every participant p and every
    start in [0, M-T), the constraint that the y[p, r] of the window
    [start, start+T] sum to at least 1; hence in a solution every such
    window has a round in which p plays a match. *)
Theorem idle_gap_constraints (n T p start : Z) :
  2 <= n -> 0 <= T < rounds n -> 0 <= p < n -> 0 <= start < rounds n - T ->
  In (mkBLE (map (fun s => Y p (start + s)) (range (T + 1))) GE (Const 1))
     (constraints (build_model n T))
  /\ forall a, satisfies a (build_model n T) ->
       exists r, start <= r <= start + T /\ r < rounds n
                 /\ a (Y p r) = true
                 /\ exists i j, In (i, j) (pairs n) /\ (i = p \/ j = p)
                                /\ a (X i j r) = true.
Proof.
  intros Hn HT Hp Hs. split.
  - apply in_build_model. right. right. right.
    apply (in_window_constraints n T p start Hp Hs).
  - intros a Hsat.
    pose proof Hsat as Hfam. apply satisfies_families in Hfam as (_ & _ & _ & H4).
    destruct (window_meaning a n T p start H4 Hp Hs) as (r & Hr & Hy).
    exists r. repeat split; try lia; [assumption|].
    apply (linkage_meaning a n T p r Hsat Hp); [lia|assumption].
Qed.

Lemma idle_gap_constraints_witness :
  exists r, 1 <= r <= 1 + 1 /\ r < rounds 3
            /\ assignment_of three_players (Y 0 r) = true
            /\ exists i j, In (i, j) (pairs 3) /\ (i = 0 \/ j = 0)
                           /\ assignment_of three_players (X i j r) = true.
Proof.
  assert (Hn : 2 <= 3) by lia.
  assert (HT : 0 <= 1 < rounds 3) by (vm_compute; split; [discriminate|reflexivity]).
  assert (Hp : 0 <= 0 < 3) by lia.
  assert (Hs : 0 <= 1 < rounds 3 - 1)
    by (vm_compute; split; [discriminate|reflexivity]).
  destruct (idle_gap_constraints 3 1 0 1 Hn HT Hp Hs) as (_ & H).
  apply H. apply satisfiesb_iff. vm_compute. reflexivity.
Defined.

(** C7: for every participant p and round r the model holds the constraint
    that the x[m, r] of exactly the matches m containing p sum to y[p, r];
    hence in a solution y[p, r] is true iff p plays in round r. *)
Theorem participation_linkage (n T p r : Z) :
  0 <= p < n -> 0 <= r < rounds n ->
  In (mkBLE (map (fun '(a, b) => X a b r) (filter (involves p) (pairs n)))
            EQ (Var (Y p r)))
     (constraints (build_model n T))
  /\ (forall a b, In (a, b) (filter (involves p) (pairs n)) <->
                  In (a, b) (pairs n) /\ (a = p \/ b = p))
  /\ forall a, satisfies a (build_model n T) ->
       (a (Y p r) = true <->
        exists i j, In (i, j) (pairs n) /\ (i = p \/ j = p) /\ a (X i j r) = true).
Proof.
  intros Hp Hr. split; [|split].
  - apply in_build_model. right. right. left.
    apply (in_linkage_constraints n p r Hp Hr).
  - intros a b. rewrite filter_In, involves_iff. reflexivity.
  - intros a Hsat. now apply (linkage_meaning a n T p r).
Qed.

Lemma participation_linkage_witness :
  In (mkBLE [X 0 1 2; X 1 2 2] EQ (Var (Y 1 2))) (constraints (build_model 3 1))
  /\ (assignment_of three_players (Y 1 2) = true <->
      exists i j, In (i, j) (pairs 3) /\ (i = 1 \/ j = 1)
                  /\ assignment_of three_players (X i j 2) = true).
Proof.
  assert (Hp : 0 <= 1 < 3) by lia.
  assert (Hr : 0 <= 2 < rounds 3) by (vm_compute; split; [discriminate|reflexivity]).
  destruct (participation_linkage 3 1 1 2 Hp Hr) as (H1 & _ & H3).
  split; [exact H1|].
  apply H3. apply satisfiesb_iff. vm_compute. reflexivity.
Defined.

(** C8: feasibility is monotone in the gap bound: an assignment that
    satisfies the model (in particular its window constraints) for a bound T
    satisfies the model for every bound T' >= T. *)
Theorem feasibility_monotone (n T T' : Z) (a : assignment) :
  2 <= n -> 0 <= T <= T' ->
  satisfies a (build_model n T) ->
  Forall (holds a) (window_constraints n T')
  /\ satisfies a (build_model n T')
  /\ feasible (build_model n T').
Proof.
  intros Hn HT Hsat.
  pose proof Hsat as Hfam. apply satisfies_families in Hfam as (H1 & H2 & H3 & H4).
  pose proof (windows_monotone a n T T' HT H4) as H4'.
  assert (Hsat' : satisfies a (build_model n T'))
    by (apply satisfies_families; auto).
  split; [assumption|]. split; [assumption|]. now exists a.
Qed.

Lemma feasibility_monotone_witness :
  Forall (holds (assignment_of four_players_gap_2)) (window_constraints 4 4)
  /\ satisfies (assignment_of four_players_gap_2) (build_model 4 4)
  /\ feasible (build_model 4 4).
Proof.
  apply (feasibility_monotone 4 2 4 (assignment_of four_players_gap_2)).
  - lia.
  - lia.
  - apply satisfiesb_iff. vm_compute. reflexivity.
Defined.

(** ** The returned schedule *)

Lemma in_extract_schedule_any (n : Z) (a : assignment) (e : triple) :
  In e (extract_schedule n a) <->
  exists i j r, In (i, j) (pairs n) /\ 0 <= r < rounds n /\ a (X i j r) = true
                /\ e = (r + 1, i + 1, j + 1).
Proof.
  rewrite extract_schedule_flat, in_flat_map. split.
  - intros ([i j] & Hin & He). apply in_map_iff in He as (r & <- & Hr).
    apply filter_In in Hr as [Hr Ha]. apply in_range in Hr.
    exists i, j, r. auto.
  - intros (i & j & r & Hin & Hr & Ha & ->). exists (i, j). split; [assumption|].
    apply in_map_iff. exists r. split; [reflexivity|].
    apply filter_In. split; [now apply in_range|assumption].
Qed.

Lemma entry_bounds (n : Z) (a : assignment) (r p q : Z) :
  In (r, p, q) (sorted (extract_schedule n a)) ->
  1 <= r <= rounds n /\ 1 <= p < q /\ q <= n.
Proof.
  intros Hin. apply (Permutation_in _ (sorted_perm _)) in Hin.
  apply in_extract_schedule_any in Hin as (i & j & r0 & Hij & Hr & _ & Heq).
  inversion Heq; subst. apply in_pairs in Hij. lia.
Qed.

Lemma triple_le_round (s t : triple) :
  triple_le s t -> entry_round s <= entry_round t.
Proof.
  destruct s as [[r1 a1] b1], t as [[r2 a2] b2].
  unfold triple_le, triple_leb, entry_round. simpl.
  destruct (Z.ltb_spec r1 r2), (Z.eqb_spec r1 r2); simpl; intros Hle;
    try discriminate; lia.
Qed.

Lemma sorted_by_round (l : list triple) :
  StronglySorted triple_le l ->
  StronglySorted (fun e e' => entry_round e <= entry_round e') l.
Proof.
  induction 1 as [|e l Hl IH He]; constructor; [assumption|].
  eapply Forall_impl; [|exact He]. intros e'. apply triple_le_round.
Qed.

Lemma sorted_by_round_strict (l : list triple) :
  StronglySorted triple_le l -> NoDup (map entry_round l) ->
  StronglySorted (fun e e' => entry_round e < entry_round e') l.
Proof.
  induction 1 as [|e l Hl IH He]; intros Hnd; constructor.
  - apply IH. now inversion Hnd.
  - inversion Hnd as [|? ? Hnot _]; subst.
    rewrite Forall_forall in He |- *. intros e' He'.
    pose proof (triple_le_round e e' (He e' He')) as Hle.
    assert (Hne : entry_round e <> entry_round e').
    { intros Heq. apply Hnot. rewrite Heq. now apply in_map. }
    lia.
Qed.

Lemma sorted_rounds_NoDup (n T : Z) (a : assignment) :
  0 <= n -> satisfies a (build_model n T) ->
  NoDup (map entry_round (sorted (extract_schedule n a))).
Proof.
  intros Hn Hsat.
  apply (Permutation_NoDup
           (l := map (fun r => r + 1) (range (rounds n)))).
  - rewrite (extract_rounds n T a Hn Hsat).
    apply Permutation_map, Permutation_sym, sorted_perm.
  - apply Injective_map_NoDup'; [intros u v; lia|apply NoDup_range].
Qed.

Lemma sorted_matches_NoDup (n T : Z) (a : assignment) :
  satisfies a (build_model n T) ->
  NoDup (map entry_match (sorted (extract_schedule n a))).
Proof.
  intros Hsat.
  apply (Permutation_NoDup (l := map entry_match (extract_schedule n a))).
  - apply Permutation_map, Permutation_sym, sorted_perm.
  - now apply (extract_matches_NoDup n T).
Qed.

(** C3: the schedule extracted from a solution of the model is a bijection
    between the M matches and the M rounds: it has M entries, each match
    occurs in exactly one round, each round holds exactly one match, no
    match and no round is repeated, and every entry is a pair of distinct
    participants (labelled 1..n, smaller first) in a round labelled 1..M. *)
Theorem schedule_is_bijection (n T : Z) (a : assignment) :
  2 <= n -> satisfies a (build_model n T) ->
  let schedule := sorted (extract_schedule n a) in
  Z.of_nat (length schedule) = rounds n
  /\ (forall i j, 0 <= i < j -> j < n ->
        exists r, In (r, i + 1, j + 1) schedule
                  /\ forall r', In (r', i + 1, j + 1) schedule -> r' = r)
  /\ (forall r, 1 <= r <= rounds n ->
        exists p q, In (r, p, q) schedule
                    /\ forall p' q', In (r, p', q') schedule -> p' = p /\ q' = q)
  /\ NoDup (map entry_match schedule)
  /\ NoDup (map entry_round schedule)
  /\ (forall r p q, In (r, p, q) schedule ->
        1 <= r <= rounds n /\ 1 <= p < q /\ q <= n).
Proof.
  intros Hn Hsat schedule.
  assert (Hn0 : 0 <= n) by lia.
  pose proof (sorted_perm (extract_schedule n a)) as Hperm. fold schedule in Hperm.
  pose proof (sorted_matches_NoDup n T a Hsat) as Hmatches. fold schedule in Hmatches.
  pose proof (sorted_rounds_NoDup n T a Hn0 Hsat) as Hrounds. fold schedule in Hrounds.
  split; [|split; [|split; [|split; [|split]]]]; try assumption.
  - rewrite (Permutation_length Hperm), (extract_schedule_sat n T a Hsat), length_map.
    now apply length_pairs.
  - intros i j Hij Hj. exists (round_of n a (i, j) + 1).
    assert (Hin : In (round_of n a (i, j) + 1, i + 1, j + 1) schedule).
    { apply (Permutation_in _ (Permutation_sym Hperm)).
      apply (in_extract_schedule n T a _ Hsat). exists i, j. auto. }
    split; [assumption|]. intros r' Hr'.
    pose proof (NoDup_map_inj entry_match schedule _ _ Hmatches Hr' Hin eq_refl) as Heq.
    now inversion Heq.
  - intros r Hr.
    assert (Hin : In r (map entry_round schedule)).
    { apply (Permutation_in (l := map entry_round (extract_schedule n a))).
      - now apply Permutation_map, Permutation_sym.
      - apply (Permutation_in _ (extract_rounds n T a Hn0 Hsat)).
        apply in_map_iff. exists (r - 1). split; [lia|]. apply in_range. lia. }
    apply in_map_iff in Hin as ([[r0 p] q] & Hr0 & Hin).
    unfold entry_round in Hr0. simpl in Hr0. subst r0.
    exists p, q. split; [assumption|]. intros p' q' Hin'.
    pose proof (NoDup_map_inj entry_round schedule _ _ Hrounds Hin' Hin eq_refl) as Heq.
    inversion Heq. auto.
  - intros r p q. apply entry_bounds.
Qed.

Lemma schedule_is_bijection_witness :
  let schedule := sorted (extract_schedule 4 (assignment_of four_players_gap_2)) in
  Z.of_nat (length schedule) = rounds 4
  /\ (forall i j, 0 <= i < j -> j < 4 ->
        exists r, In (r, i + 1, j + 1) schedule
                  /\ forall r', In (r', i + 1, j + 1) schedule -> r' = r)
  /\ (forall r, 1 <= r <= rounds 4 ->
        exists p q, In (r, p, q) schedule
                    /\ forall p' q', In (r, p', q') schedule -> p' = p /\ q' = q)
  /\ NoDup (map entry_match schedule)
  /\ NoDup (map entry_round schedule)
  /\ (forall r p q, In (r, p, q) schedule ->
        1 <= r <= rounds 4 /\ 1 <= p < q /\ q <= 4).
Proof.
  apply (schedule_is_bijection 4 2 (assignment_of four_players_gap_2)).
  - lia.
  - apply satisfiesb_iff. vm_compute. reflexivity.
Defined.

(** ** What the function returns *)

Section ReturnedValue.

Context {seconds : Type}.
Variable Solve : CpModel -> SatParameters seconds -> CpSolverStatus * assignment.
Variables (n : Z) (time_limit_s : option seconds) (num_workers : Z).

Lemma returned_some (T : Z) (schedule : list triple) :
  schedule_round_robin Solve n time_limit_s num_workers = Some (T, schedule) ->
  0 <= T < rounds n
  /\ reports_solution (status_at Solve n time_limit_s num_workers T) = true
  /\ (forall T', 0 <= T' < T ->
        reports_solution (status_at Solve n time_limit_s num_workers T') = false)
  /\ schedule
     = sorted (extract_schedule n (value_at Solve n time_limit_s num_workers T))
  /\ fst (schedule_round_robin_run Solve n time_limit_s num_workers)
     = map (call_at n time_limit_s num_workers) (range (T + 1)).
Proof.
  unfold schedule_round_robin. intros H.
  destruct (run_cases Solve n time_limit_s num_workers)
    as [(T0 & HT0 & Hsol & Hbefore & Hrun)|(_ & Hrun)];
    rewrite Hrun in H |- *; simpl in H; [|discriminate].
  inversion H; subst. auto.
Qed.


End ReturnedValue.

(** C9: a returned schedule is sorted in ascending lexicographic order, so
    its entries are in non-decreasing round order; when the solver's values
    satisfy the model the rounds are strictly increasing. *)
Theorem returned_schedule_sorted {seconds : Type}
        (Solve : CpModel -> SatParameters seconds -> CpSolverStatus * assignment)
        (n : Z) (time_limit_s : option seconds) (num_workers : Z)
        (T : Z) (schedule : list triple) :
  schedule_round_robin Solve n time_limit_s num_workers = Some (T, schedule) ->
  StronglySorted triple_le schedule
  /\ StronglySorted (fun e e' => entry_round e <= entry_round e') schedule
  /\ (satisfies (value_at Solve n time_limit_s num_workers T) (build_model n T) ->
      StronglySorted (fun e e' => entry_round e < entry_round e') schedule).
Proof.
  intros H. apply returned_some in H as (HT & _ & _ & -> & _).
  split; [apply sorted_sorted|]. split.
  - apply sorted_by_round, sorted_sorted.
  - intros Hsat. apply sorted_by_round_strict; [apply sorted_sorted|].
    apply (sorted_rounds_NoDup n T); [|assumption].
    destruct (Z_lt_ge_dec n 0) as [Hneg|Hpos]; [|lia].
    exfalso. apply satisfies_families in Hsat as (_ & H2 & _).
    rewrite Forall_forall in H2.
    assert (Hin : In T (range (rounds n))) by (now apply in_range).
    specialize (H2 _ (in_map (one_per_round n) _ _ Hin)).
    unfold holds in H2. simpl in H2.
    assert (Hnil : pairs n = []).
    { unfold pairs, range. now replace (Z.to_nat n) with 0%nat by lia. }
    rewrite Hnil in H2. simpl in H2. discriminate.
Qed.

Lemma returned_schedule_sorted_witness :
  let schedule := [(1, 1, 2); (2, 3, 4); (3, 1, 3); (4, 2, 4); (5, 1, 4); (6, 2, 3)] in
  StronglySorted triple_le schedule
  /\ StronglySorted (fun e e' => entry_round e <= entry_round e') schedule
  /\ (satisfies (value_at (seconds := Z) (try_candidate four_players_gap_2) 4 None 8 2)
                (build_model 4 2) ->
      StronglySorted (fun e e' => entry_round e < entry_round e') schedule).
Proof.
  apply (returned_schedule_sorted (try_candidate four_players_gap_2) 4 None 8 2).
  vm_compute. reflexivity.
Defined.

(** C6 as the code has it: the entries of a returned schedule are 1-based,
    the round in [1, M] and the two participants in [1, n], smaller first;
    for n = 2 a solution of the model gives T = 0 and the single entry
    (round 1, participant 1, participant 2). *)
Theorem returned_schedule_one_based {seconds : Type}
        (Solve : CpModel -> SatParameters seconds -> CpSolverStatus * assignment)
        (n : Z) (time_limit_s : option seconds) (num_workers : Z)
        (T : Z) (schedule : list triple) :
  schedule_round_robin Solve n time_limit_s num_workers = Some (T, schedule) ->
  (forall r p q, In (r, p, q) schedule ->
     1 <= r <= rounds n /\ 1 <= p < q /\ q <= n)
  /\ (n = 2 ->
      satisfies (value_at Solve n time_limit_s num_workers T) (build_model n T) ->
      T = 0 /\ schedule = [(1, 1, 2)]).
Proof.
  intros H. apply returned_some in H as (HT & _ & _ & -> & _). split.
  - intros r p q. apply entry_bounds.
  - intros -> Hsat. change (rounds 2) with 1 in HT.
    assert (T = 0) by lia. subst T. split; [reflexivity|].
    rewrite (extract_schedule_sat 2 0 _ Hsat).
    change (pairs 2) with [(0, 1)]. cbn [map fst snd].
    assert (Hin : In (0, 1) (pairs 2)) by (apply in_pairs; lia).
    destruct (round_of_played 2 0 _ 0 1 Hsat Hin) as [Hr _].
    change (rounds 2) with 1 in Hr.
    replace (round_of 2 _ (0, 1)) with 0 by lia. reflexivity.
Qed.

Lemma returned_schedule_one_based_witness :
  (forall r p q, In (r, p, q) [(1, 1, 2)] ->
     1 <= r <= rounds 2 /\ 1 <= p < q /\ q <= 2)
  /\ (2 = 2 ->
      satisfies (value_at (seconds := Z) (try_candidate two_players) 2 None 8 0)
                (build_model 2 0) ->
      0 = 0 /\ [(1, 1, 2)] = [(1, 1, 2)]).
Proof.
  apply (returned_schedule_one_based (try_candidate two_players) 2 None 8 0).
  vm_compute. reflexivity.
Defined.

(** C6 as stated fails: for n = 2 the function returns the entry
    (1, 1, 2), not (round 0, participant 0, participant 1), whatever the
    solver answers. *)
Lemma zero_based_schedule_refuted :
  schedule_round_robin (seconds := Z) (try_candidate two_players) 2 None 8
  = Some (0, [(1, 1, 2)])
  /\ forall (Solve : CpModel -> SatParameters Z -> CpSolverStatus * assignment)
            (time_limit_s : option Z) (num_workers : Z),
       schedule_round_robin Solve 2 time_limit_s num_workers
       <> Some (0, [(0, 0, 1)]).
Proof.
  split; [vm_compute; reflexivity|].
  intros Solve tl w H. apply returned_some in H as (_ & _ & _ & Heq & _).
  assert (Hin : In (0, 0, 1) (sorted (extract_schedule 2 (value_at Solve 2 tl w 0))))
    by (rewrite <- Heq; now left).
  apply entry_bounds in Hin. lia.
Qed.

(** ** Solvers and the search *)

Lemma try_candidate_truthful {seconds : Type} (entries : list triple)
      (model : CpModel) (parameters : SatParameters seconds) :
  truthful model (try_candidate entries model parameters).
Proof.
  unfold truthful, try_candidate.
  destruct (satisfiesb (assignment_of entries) model) eqn:E; simpl; [|exact I].
  now apply satisfiesb_iff.
Qed.



Lemma for_T_agree {seconds : Type}
      (Solve Solve' : CpModel -> SatParameters seconds -> CpSolverStatus * assignment)
      (n : Z) (time_limit_s : option seconds) (num_workers : Z)
      (Ts : list Z) (calls : list (solver_call seconds)) :
  (forall model parameters,
      reports_solution (fst (Solve model parameters))
      = reports_solution (fst (Solve' model parameters))
      /\ snd (Solve model parameters) = snd (Solve' model parameters)) ->
  for_T Solve n time_limit_s num_workers Ts calls
  = for_T Solve' n time_limit_s num_workers Ts calls.
Proof.
  intros Hagree. revert calls. induction Ts as [|T Ts IH]; intros calls;
    [reflexivity|].
  cbn [for_T].
  destruct (Hagree (build_model n T) (solver_parameters time_limit_s num_workers))
    as [Hst Hval].
  destruct (Solve (build_model n T) (solver_parameters time_limit_s num_workers))
    as [st v].
  destruct (Solve' (build_model n T) (solver_parameters time_limit_s num_workers))
    as [st' v'].
  simpl in Hst, Hval. subst v'. rewrite <- Hst.
  destruct (reports_solution st); [reflexivity|apply IH].
Qed.

Lemma no_solution_none {seconds : Type}
      (Solve : CpModel -> SatParameters seconds -> CpSolverStatus * assignment)
      (n : Z) (time_limit_s : option seconds) (num_workers : Z) :
  (forall model parameters, reports_solution (fst (Solve model parameters)) = false) ->
  schedule_round_robin Solve n time_limit_s num_workers = None.
Proof.
  intros Hno. unfold schedule_round_robin.
  rewrite run_no_solution; [reflexivity|].
  intros T _. apply Hno.
Qed.

Lemma small_n_run {seconds : Type}
      (Solve : CpModel -> SatParameters seconds -> CpSolverStatus * assignment)
      (n : Z) (time_limit_s : option seconds) (num_workers : Z) :
  n = 0 \/ n = 1 ->
  schedule_round_robin_run Solve n time_limit_s num_workers = ([], None).
Proof.
  intros [-> | ->]; reflexivity.
Qed.

(** ** The bound search *)

(** C4 as the code has it: an UNKNOWN status is handled exactly like
    INFEASIBLE: relabelling every UNKNOWN as INFEASIBLE changes neither the
    invocations made nor the value returned, and a solver that only ever
    answers UNKNOWN yields None. *)
Theorem unknown_treated_as_infeasible {seconds : Type}
        (Solve : CpModel -> SatParameters seconds -> CpSolverStatus * assignment)
        (n : Z) (time_limit_s : option seconds) (num_workers : Z) :
  schedule_round_robin_run (unknown_as_infeasible Solve) n time_limit_s num_workers
  = schedule_round_robin_run Solve n time_limit_s num_workers
  /\ schedule_round_robin always_unknown n time_limit_s num_workers = None
  /\ schedule_round_robin always_unknown n time_limit_s num_workers
     = schedule_round_robin always_infeasible n time_limit_s num_workers.
Proof.
  split; [|split].
  - unfold schedule_round_robin_run. apply for_T_agree.
    intros model parameters. unfold unknown_as_infeasible.
    destruct (Solve model parameters) as [st v]. simpl. now destruct st.
  - now apply no_solution_none.
  - now rewrite !no_solution_none.
Qed.

(** C4 as stated fails: on UNKNOWN for T = 0 the search goes on to T = 1
    and T = 2 and returns the same None as for a solver that proves every
    bound infeasible; and after UNKNOWN on T = 0, 1, 2 it returns the
    schedule found for T = 3. *)
Lemma unknown_not_reported :
  status_at (seconds := Z) always_unknown 3 None 8 0 = UNKNOWN
  /\ map fst (fst (schedule_round_robin_run (seconds := Z) always_unknown 3 None 8))
     = [build_model 3 0; build_model 3 1; build_model 3 2]
  /\ schedule_round_robin (seconds := Z) always_unknown 3 None 8
     = schedule_round_robin (seconds := Z) always_infeasible 3 None 8
  /\ map (status_at (seconds := Z) (try_candidate four_players_gap_3) 4 None 8)
         [0; 1; 2]
     = [UNKNOWN; UNKNOWN; UNKNOWN]
  /\ exists schedule,
       schedule_round_robin (seconds := Z) (try_candidate four_players_gap_3) 4 None 8
       = Some (3, schedule).
Proof.
  split; [reflexivity|]. split; [reflexivity|]. split; [reflexivity|].
  split; [vm_compute; reflexivity|].
  eexists. vm_compute. reflexivity.
Qed.

(** C5 as the code has it: for n = 0 and n = 1 no model is built and the
    solver is never invoked, but nothing is rejected: the function returns
    None, the value it also returns for any n when no bound is reported
    solvable. *)
Theorem small_n_not_rejected {seconds : Type}
        (Solve : CpModel -> SatParameters seconds -> CpSolverStatus * assignment)
        (n : Z) (time_limit_s : option seconds) (num_workers : Z) :
  n = 0 \/ n = 1 ->
  fst (schedule_round_robin_run Solve n time_limit_s num_workers) = []
  /\ schedule_round_robin Solve n time_limit_s num_workers = None
  /\ forall n',
       schedule_round_robin Solve n time_limit_s num_workers
       = schedule_round_robin always_infeasible n' time_limit_s num_workers.
Proof.
  intros Hn. unfold schedule_round_robin at 1 2.
  rewrite (small_n_run Solve n time_limit_s num_workers Hn).
  split; [reflexivity|]. split; [reflexivity|].
  intros n'. simpl. symmetry. now apply no_solution_none.
Qed.

Lemma small_n_not_rejected_witness :
  fst (schedule_round_robin_run (seconds := Z) (try_candidate two_players) 1 None 8)
  = []
  /\ schedule_round_robin (seconds := Z) (try_candidate two_players) 1 None 8 = None
  /\ forall n',
       schedule_round_robin (seconds := Z) (try_candidate two_players) 1 None 8
       = schedule_round_robin (seconds := Z) always_infeasible n' None 8.
Proof.
  apply (small_n_not_rejected (try_candidate two_players) 1 None 8).
  right. reflexivity.
Defined.

(** C5 as stated fails: the inputs 0 and 1 produce no error; their result
    is the plain None that the valid input n = 2 produces when the search
    ends without solution.  And for the input -1, M is 1: a model is built
    and the solver is invoked. *)
Lemma invalid_input_not_rejected :
  schedule_round_robin (seconds := Z) always_infeasible 0 None 8 = None
  /\ schedule_round_robin (seconds := Z) always_infeasible 1 None 8 = None
  /\ schedule_round_robin (seconds := Z) always_infeasible 0 None 8
     = schedule_round_robin (seconds := Z) always_infeasible 2 None 8
  /\ schedule_round_robin (seconds := Z) always_infeasible 1 None 8
     = schedule_round_robin (seconds := Z) always_infeasible 2 None 8
  /\ schedule_round_robin_run (seconds := Z) always_infeasible (-1) None 8
     = ([call_at (-1) None 8 0], None).
Proof. repeat split. Qed.

(** C10: for n = 0 and n = 1, M is 0, the loop over range(M) has no
    iteration, no model is built or solved, and the function returns
    None. *)
Theorem small_n_returns_none {seconds : Type}
        (Solve : CpModel -> SatParameters seconds -> CpSolverStatus * assignment)
        (n : Z) (time_limit_s : option seconds) (num_workers : Z) :
  0 <= n < 2 ->
  rounds n = 0
  /\ range (rounds n) = []
  /\ schedule_round_robin_run Solve n time_limit_s num_workers = ([], None)
  /\ schedule_round_robin Solve n time_limit_s num_workers = None.
Proof.
  intros Hn. assert (Hn' : n = 0 \/ n = 1) by lia.
  unfold schedule_round_robin.
  rewrite (small_n_run Solve n time_limit_s num_workers Hn').
  destruct Hn' as [-> | ->]; repeat split.
Qed.

Lemma small_n_returns_none_witness :
  rounds 0 = 0
  /\ range (rounds 0) = []
  /\ schedule_round_robin_run (seconds := Z) always_unknown 0 None 8 = ([], None)
  /\ schedule_round_robin (seconds := Z) always_unknown 0 None 8 = None.
Proof.
  apply (small_n_returns_none always_unknown 0 None 8). lia.
Defined.

(** A negative count is no small count: M is positive and the solver is
    invoked on a model whose round constraints are empty sums. *)
Example negative_n_invokes_solver :
  rounds (-1) = 1
  /\ schedule_round_robin_run (seconds := Z) always_infeasible (-1) None 8
     = ([call_at (-1) None 8 0], None)
  /\ constraints (build_model (-1) 0) = [mkBLE [] EQ (Const 1)].
Proof. repeat split. Qed.

(** * Further properties of the encoder *)

Lemma pair_eqb_eq (u v : Z * Z) : pair_eqb u v = true <-> u = v.
Proof.
  destruct u as [a b], v as [c d]. unfold pair_eqb. simpl.
  rewrite andb_true_iff, !Z.eqb_eq. split; [intros [-> ->]; reflexivity|].
  intros H. inversion H. auto.
Qed.

Lemma filter_eqb_notin {A : Type} (eqb : A -> A -> bool) (l : list A) (u : A) :
  (forall v w, eqb v w = true <-> v = w) ->
  ~ In u l -> filter (eqb u) l = [].
Proof.
  intros Heqb. induction l as [|v l IH]; intros Hnot; [reflexivity|].
  simpl. destruct (eqb u v) eqn:E.
  - apply Heqb in E. subst v. exfalso. apply Hnot. now left.
  - apply IH. intros Hin. apply Hnot. now right.
Qed.

Lemma filter_eqb_NoDup {A : Type} (eqb : A -> A -> bool) (l : list A) (u : A) :
  (forall v w, eqb v w = true <-> v = w) ->
  NoDup l -> In u l -> filter (eqb u) l = [u].
Proof.
  intros Heqb. induction 1 as [|v l Hv Hl IH]; intros Hin; [contradiction|].
  simpl. destruct (eqb u v) eqn:E.
  - apply Heqb in E. subst v. f_equal. now apply filter_eqb_notin.
  - destruct Hin as [->|Hin]; [|now apply IH].
    assert (eqb u u = true) by (now apply Heqb). congruence.
Qed.

Lemma map_nth_seq {A : Type} (l : list A) (d : A) :
  map (fun k => nth k l d) (seq 0 (length l)) = l.
Proof.
  induction l as [|u l IH]; [reflexivity|].
  cbn [length seq map nth]. f_equal.
  rewrite map_seq_offset. simpl. exact IH.
Qed.

Lemma range_rounds_pairs (n : Z) :
  0 <= n -> range (rounds n) = map Z.of_nat (seq 0 (length (pairs n))).
Proof.
  intros Hn. unfold range. rewrite <- (length_pairs n Hn), Nat2Z.id. reflexivity.
Qed.

Lemma nth_pairs_in (n r : Z) :
  0 <= n -> 0 <= r < rounds n -> In (nth (Z.to_nat r) (pairs n) (-1, -1)) (pairs n).
Proof.
  intros Hn Hr. apply nth_In. pose proof (length_pairs n Hn). lia.
Qed.

Lemma listing_order_match_once (n i j : Z) :
  0 <= n -> In (i, j) (pairs n) ->
  length (filter (fun r => listing_order n (X i j r)) (range (rounds n))) = 1%nat.
Proof.
  intros Hn Hin. rewrite (range_rounds_pairs n Hn), filter_map_comm, length_map.
  rewrite (filter_ext _ (fun k => pair_eqb (i, j) (nth k (pairs n) (-1, -1)))).
  - rewrite <- (length_map (fun k => nth k (pairs n) (-1, -1))).
    rewrite <- filter_map_comm, map_nth_seq.
    now rewrite (filter_eqb_NoDup pair_eqb _ _ pair_eqb_eq (NoDup_pairs n) Hin).
  - intros k. unfold listing_order. rewrite Nat2Z.id.
    replace (0 <=? Z.of_nat k) with true by (symmetry; apply Z.leb_le; lia).
    simpl. unfold pair_eqb. simpl. now rewrite (Z.eqb_sym i), (Z.eqb_sym j).
Qed.

Lemma listing_order_round (n r : Z) :
  0 <= r ->
  filter (fun ij => listing_order n (X (fst ij) (snd ij) r)) (pairs n)
  = filter (pair_eqb (nth (Z.to_nat r) (pairs n) (-1, -1))) (pairs n).
Proof.
  intros Hr. apply filter_ext. intros [i j]. unfold listing_order. simpl.
  now replace (0 <=? r) with true by (symmetry; apply Z.leb_le; lia).
Qed.

Lemma filter_comm {A : Type} (f g : A -> bool) (l : list A) :
  filter f (filter g l) = filter g (filter f l).
Proof.
  induction l as [|u l IH]; [reflexivity|]. simpl.
  destruct (f u) eqn:Ef, (g u) eqn:Eg; simpl; rewrite ?Ef, ?Eg, IH; reflexivity.
Qed.

Lemma exists_pair_with (n p : Z) :
  2 <= n -> 0 <= p < n ->
  exists i j, In (i, j) (pairs n) /\ (i = p \/ j = p).
Proof.
  intros Hn Hp. destruct (Z.eq_dec p 0) as [->|Hne].
  - exists 0, 1. split; [apply in_pairs; lia|now left].
  - exists 0, p. split; [apply in_pairs; lia|now right].
Qed.

(** Playing the pairs in listing order satisfies the model of the last
    candidate bound. *)
Lemma listing_order_satisfies (n : Z) :
  2 <= n -> satisfies (listing_order n) (build_model n (rounds n - 1)).
Proof.
  intros Hn. assert (Hn0 : 0 <= n) by lia.
  apply satisfies_families. repeat split; apply Forall_forall; intros c Hc.
  - apply in_map_iff in Hc as ([i j] & <- & Hij).
    unfold holds. cbn [rel terms bound match_once bound_value].
    rewrite sum_vars_map, (listing_order_match_once n i j Hn0 Hij). reflexivity.
  - apply in_map_iff in Hc as (r & <- & Hr). apply in_range in Hr.
    unfold holds. cbn [rel terms bound one_per_round bound_value].
    rewrite sum_vars_map.
    rewrite (filter_ext _ (fun ij => listing_order n (X (fst ij) (snd ij) r)))
      by (now intros [u v]).
    rewrite listing_order_round by lia.
    now rewrite (filter_eqb_NoDup pair_eqb _ _ pair_eqb_eq (NoDup_pairs n)
                   (nth_pairs_in n r Hn0 Hr)).
  - apply in_flat_map in Hc as (p & Hp & Hc).
    apply in_map_iff in Hc as (r & <- & Hr). apply in_range in Hr.
    unfold holds. cbn [rel terms bound linkage bound_value].
    rewrite sum_vars_map.
    rewrite (filter_ext _ (fun ij => listing_order n (X (fst ij) (snd ij) r)))
      by (now intros [u v]).
    rewrite (filter_ext (fun ij => listing_order n (X (fst ij) (snd ij) r))
                        (pair_eqb (nth (Z.to_nat r) (pairs n) (-1, -1)))).
    + rewrite filter_comm.
      rewrite (filter_eqb_NoDup pair_eqb _ _ pair_eqb_eq (NoDup_pairs n)
                 (nth_pairs_in n r Hn0 Hr)).
      unfold listing_order.
      replace (0 <=? r) with true by (symmetry; apply Z.leb_le; lia).
      cbn [filter andb]. now destruct (involves p _).
    + intros [u v]. unfold listing_order. simpl.
      now replace (0 <=? r) with true by (symmetry; apply Z.leb_le; lia).
  - apply in_flat_map in Hc as (p & Hp & Hc).
    apply in_map_iff in Hc as (start & <- & Hs).
    apply in_range in Hp. apply in_range in Hs.
    unfold holds. cbn [rel terms bound window bound_value].
    apply sum_vars_ge_1.
    destruct (exists_pair_with n p Hn Hp) as (i & j & Hij & Hinv).
    destruct (In_nth _ _ (-1, -1) Hij) as (k & Hk & Hnth).
    pose proof (length_pairs n Hn0) as Hlen.
    exists (Y p (start + Z.of_nat k)). split.
    + apply in_map_iff. exists (Z.of_nat k). split; [reflexivity|].
      apply in_range. lia.
    + unfold listing_order.
      replace (start + Z.of_nat k) with (Z.of_nat k) by lia.
      rewrite Nat2Z.id, Hnth.
      replace (0 <=? Z.of_nat k) with true by (symmetry; apply Z.leb_le; lia).
      cbn [andb]. apply (involves_iff p (i, j)). exact Hinv.
Qed.

(** X1: for n >= 2 the model of the last candidate bound M-1 (and of any
    larger bound) always has a solution: playing the pairs in the order of
    [pairs], one per round, satisfies all four constraint families. *)
Theorem last_bound_always_feasible (n T : Z) :
  2 <= n -> rounds n - 1 <= T ->
  satisfies (listing_order n) (build_model n T)
  /\ feasible (build_model n T).
Proof.
  intros Hn HT. pose proof (rounds_pos n Hn) as HM.
  pose proof (listing_order_satisfies n Hn) as Hsat.
  assert (Hsat' : satisfies (listing_order n) (build_model n T)).
  { pose proof Hsat as Hfam.
    apply satisfies_families in Hfam as (H1 & H2 & H3 & H4).
    apply satisfies_families. repeat split; try assumption.
    apply (windows_monotone _ n (rounds n - 1) T); [lia|assumption]. }
  split; [assumption|]. now exists (listing_order n).
Qed.

Lemma last_bound_always_feasible_witness :
  satisfies (listing_order 4) (build_model 4 5)
  /\ feasible (build_model 4 5).
Proof.
  apply (last_bound_always_feasible 4 5).
  - lia.
  - vm_compute. discriminate.
Defined.

(** X2: the exit commented "Should never get here" is indeed not reached
    for n >= 2 when the solver's answer for the last bound M-1 is truthful
    and conclusive (neither UNKNOWN nor MODEL_INVALID): the function then
    returns some bound T in [0, M) with a schedule. *)
Theorem conclusive_solver_returns_schedule {seconds : Type}
        (Solve : CpModel -> SatParameters seconds -> CpSolverStatus * assignment)
        (n : Z) (time_limit_s : option seconds) (num_workers : Z) :
  2 <= n ->
  truthful (build_model n (rounds n - 1))
           (answer_at Solve n time_limit_s num_workers (rounds n - 1)) ->
  status_at Solve n time_limit_s num_workers (rounds n - 1) <> UNKNOWN ->
  status_at Solve n time_limit_s num_workers (rounds n - 1) <> MODEL_INVALID ->
  exists T schedule,
    schedule_round_robin Solve n time_limit_s num_workers = Some (T, schedule)
    /\ 0 <= T < rounds n.
Proof.
  intros Hn Htruth Hunk Hinv. pose proof (rounds_pos n Hn) as HM.
  unfold schedule_round_robin.
  destruct (run_cases Solve n time_limit_s num_workers)
    as [(T & HT & _ & _ & Hrun)|(Hno & _)].
  - rewrite Hrun. eexists _, _. split; [reflexivity|assumption].
  - exfalso. specialize (Hno (rounds n - 1) ltac:(lia)).
    unfold truthful in Htruth. unfold status_at in Hno, Hunk, Hinv.
    destruct (fst (answer_at Solve n time_limit_s num_workers (rounds n - 1)));
      try discriminate; try congruence.
    apply Htruth. exists (listing_order n). now apply listing_order_satisfies.
Qed.

Lemma conclusive_solver_returns_schedule_witness :
  exists T schedule,
    schedule_round_robin (seconds := Z) (candidate_or_infeasible three_players)
                         3 None 8
    = Some (T, schedule)
    /\ 0 <= T < rounds 3.
Proof.
  apply (conclusive_solver_returns_schedule
           (candidate_or_infeasible three_players) 3 None 8).
  - lia.
  - unfold truthful, answer_at, candidate_or_infeasible.
    change (rounds 3 - 1) with 2.
    destruct (satisfiesb (assignment_of three_players) (build_model 3 2)) eqn:E;
      simpl; [now apply satisfiesb_iff|].
    vm_compute in E. discriminate.
  - vm_compute. discriminate.
  - vm_compute. discriminate.
Defined.

(** * Further properties of the returned schedule *)

Lemma sorted_perm_unique {A : Type} (R : A -> A -> Prop) :
  (forall u v, R u v -> R v u -> u = v) ->
  forall l l', StronglySorted R l -> StronglySorted R l' -> Permutation l l' ->
               l = l'.
Proof.
  intros Hanti. induction l as [|u l IH]; intros l' Hs Hs' Hp.
  - apply Permutation_nil in Hp. now subst.
  - destruct l' as [|v l'].
    + apply Permutation_sym, Permutation_nil in Hp. discriminate.
    + inversion Hs as [|? ? Hsl Hu]; subst. inversion Hs' as [|? ? Hsl' Hv]; subst.
      rewrite Forall_forall in Hu, Hv.
      assert (Huv : u = v).
      { assert (Hin : In u (v :: l')) by (apply (Permutation_in _ Hp); now left).
        assert (Hin' : In v (u :: l))
          by (apply (Permutation_in _ (Permutation_sym Hp)); now left).
        destruct Hin as [->|Hin]; [reflexivity|].
        destruct Hin' as [->|Hin']; [reflexivity|].
        apply Hanti; auto. }
      subst v. f_equal. apply IH; auto. now apply Permutation_cons_inv in Hp.
Qed.

Lemma triple_le_antisym (s t : triple) : triple_le s t -> triple_le t s -> s = t.
Proof.
  destruct s as [[r1 a1] b1], t as [[r2 a2] b2]. unfold triple_le, triple_leb.
  intros H1 H2.
  destruct (Z.ltb_spec r1 r2), (Z.eqb_spec r1 r2), (Z.ltb_spec a1 a2),
    (Z.eqb_spec a1 a2), (Z.leb_spec b1 b2); simpl in H1; try discriminate;
    destruct (Z.ltb_spec r2 r1), (Z.eqb_spec r2 r1), (Z.ltb_spec a2 a1),
    (Z.eqb_spec a2 a1), (Z.leb_spec b2 b1); simpl in H2; try discriminate;
    try lia; repeat f_equal; lia.
Qed.

(** X3: [sorted] depends only on which entries the list holds, not on
    their order: two rearrangements of the same entries sort to the same
    list, and sorting a sorted list changes nothing. *)
Theorem sorted_order_independent (l l' : list triple) :
  Permutation l l' ->
  sorted l = sorted l' /\ sorted (sorted l) = sorted l.
Proof.
  intros Hp. split.
  - apply (sorted_perm_unique triple_le triple_le_antisym);
      try apply sorted_sorted.
    rewrite (sorted_perm l), (sorted_perm l'). exact Hp.
  - apply (sorted_perm_unique triple_le triple_le_antisym);
      try apply sorted_sorted.
    apply sorted_perm.
Qed.

Lemma sorted_order_independent_witness :
  sorted [(2, 1, 3); (1, 2, 3); (3, 1, 2)] = sorted [(3, 1, 2); (2, 1, 3); (1, 2, 3)]
  /\ sorted (sorted [(2, 1, 3); (1, 2, 3); (3, 1, 2)])
     = sorted [(2, 1, 3); (1, 2, 3); (3, 1, 2)].
Proof.
  apply sorted_order_independent.
  apply (perm_trans (l' := [(2, 1, 3); (3, 1, 2); (1, 2, 3)])).
  - apply perm_skip, perm_swap.
  - apply perm_swap.
Defined.

Lemma solution_n_nonneg (n T : Z) (a : assignment) :
  0 < rounds n -> satisfies a (build_model n T) -> 0 <= n.
Proof.
  intros HM Hsat. destruct (Z_lt_ge_dec n 0) as [Hneg|Hpos]; [|lia].
  exfalso. apply satisfies_families in Hsat as (_ & H2 & _).
  rewrite Forall_forall in H2.
  assert (Hin : In 0 (range (rounds n))) by (apply in_range; lia).
  specialize (H2 _ (in_map (one_per_round n) _ _ Hin)).
  unfold holds in H2. simpl in H2.
  assert (Hnil : pairs n = []).
  { unfold pairs, range. now replace (Z.to_nat n) with 0%nat by lia. }
  rewrite Hnil in H2. simpl in H2. discriminate.
Qed.

Lemma StronglySorted_map {A B : Type} (R : B -> B -> Prop) (f : A -> B)
      (l : list A) :
  StronglySorted (fun u v => R (f u) (f v)) l -> StronglySorted R (map f l).
Proof.
  induction 1 as [|u l Hl IH Hu]; simpl; constructor; [assumption|].
  apply Forall_map. exact Hu.
Qed.

Lemma round_labels_sorted (M : Z) :
  StronglySorted Z.le (map (fun r => r + 1) (range M)).
Proof.
  unfold range. rewrite map_map.
  generalize 0%nat as s. induction (Z.to_nat M) as [|k IH]; intros s; simpl;
    constructor; [apply IH|].
  apply Forall_forall. intros v Hv. apply in_map_iff in Hv as (u & <- & Hu).
  apply in_seq in Hu. lia.
Qed.

Lemma sorted_rounds_in_order (n T : Z) (a : assignment) :
  0 < rounds n -> satisfies a (build_model n T) ->
  map entry_round (sorted (extract_schedule n a))
  = map (fun r => r + 1) (range (rounds n)).
Proof.
  intros HM Hsat.
  assert (Hn : 0 <= n) by (apply (solution_n_nonneg n T a HM Hsat)).
  apply (sorted_perm_unique Z.le Z.le_antisymm).
  - apply StronglySorted_map, sorted_by_round, sorted_sorted.
  - apply round_labels_sorted.
  - rewrite (extract_rounds n T _ Hn Hsat).
    apply Permutation_map, sorted_perm.
Qed.

(** X4: when the solver's values satisfy the model, the returned list has
    its rounds in the order 1, 2, ..., M: the k-th entry is the match of
    round k. *)
Theorem returned_rounds_in_order {seconds : Type}
        (Solve : CpModel -> SatParameters seconds -> CpSolverStatus * assignment)
        (n : Z) (time_limit_s : option seconds) (num_workers : Z)
        (T : Z) (schedule : list triple) :
  schedule_round_robin Solve n time_limit_s num_workers = Some (T, schedule) ->
  satisfies (value_at Solve n time_limit_s num_workers T) (build_model n T) ->
  map entry_round schedule = map (fun r => r + 1) (range (rounds n))
  /\ forall k, (k < length schedule)%nat ->
               entry_round (nth k schedule (0, 0, 0)) = Z.of_nat k + 1.
Proof.
  intros Hres Hsat. apply returned_some in Hres as (HT & _ & _ & -> & _).
  pose proof (sorted_rounds_in_order n T _ ltac:(lia) Hsat) as Hmap.
  split; [assumption|]. intros k Hk.
  change 0 with (entry_round (0, 0, 0)) at 1.
  rewrite <- (map_nth entry_round), Hmap.
  unfold range. rewrite map_map.
  assert (Hlen : (k < Z.to_nat (rounds n))%nat).
  { rewrite <- (length_map entry_round), Hmap, length_map, length_range in Hk.
    exact Hk. }
  rewrite (nth_indep _ _ (Z.of_nat 0 + 1))
    by (now rewrite length_map, length_seq).
  rewrite (map_nth (fun u => Z.of_nat u + 1)), seq_nth by assumption.
  reflexivity.
Qed.

Lemma returned_rounds_in_order_witness :
  let schedule := [(1, 1, 2); (2, 3, 4); (3, 1, 3); (4, 2, 4); (5, 1, 4); (6, 2, 3)] in
  map entry_round schedule = map (fun r => r + 1) (range (rounds 4))
  /\ forall k, (k < length schedule)%nat ->
               entry_round (nth k schedule (0, 0, 0)) = Z.of_nat k + 1.
Proof.
  apply (returned_rounds_in_order (seconds := Z)
           (try_candidate four_players_gap_2) 4 None 8 2).
  - vm_compute. reflexivity.
  - apply satisfiesb_iff. vm_compute. reflexivity.
Defined.

(** ** Counting matches and participants *)

Lemma filter_split_length {A : Type} (f : A -> bool) (l : list A) :
  (length (filter f l) + length (filter (fun u => negb (f u)) l) = length l)%nat.
Proof.
  induction l as [|u l IH]; [reflexivity|]. simpl.
  destruct (f u); simpl; lia.
Qed.

Lemma filter_or_disjoint {A : Type} (f g : A -> bool) (l : list A) :
  (forall u, f u = true -> g u = false) ->
  length (filter (fun u => f u || g u) l)
  = (length (filter f l) + length (filter g l))%nat.
Proof.
  intros Hfg. induction l as [|u l IH]; [reflexivity|]. simpl.
  destruct (f u) eqn:Ef; simpl.
  - rewrite (Hfg u Ef). simpl. now rewrite IH.
  - destruct (g u); simpl; rewrite IH; lia.
Qed.

Lemma Permutation_filter_length {A : Type} (f : A -> bool) (l l' : list A) :
  Permutation l l' -> length (filter f l) = length (filter f l').
Proof.
  induction 1 as [|u l l' Hp IH|u v l|l l' l'' H1 IH1 H2 IH2]; simpl.
  - reflexivity.
  - destruct (f u); simpl; now rewrite IH.
  - destruct (f u), (f v); reflexivity.
  - now rewrite IH1.
Qed.

Lemma NoDup_map_on {A B : Type} (f : A -> B) (l : list A) :
  (forall u v, In u l -> In v l -> f u = f v -> u = v) ->
  NoDup l -> NoDup (map f l).
Proof.
  intros Hinj. induction 1 as [|u l Hu Hl IH]; simpl; constructor.
  - intros Hin. apply in_map_iff in Hin as (v & Hv & Hin).
    assert (v = u) by (apply Hinj; [now right|now left|assumption]).
    subst v. contradiction.
  - apply IH. intros v w Hv Hw. apply Hinj; now right.
Qed.

(** Every participant has n-1 matches among [pairs]. *)
Lemma matches_of_participant (n p : Z) :
  0 <= p < n ->
  Z.of_nat (length (filter (involves p) (pairs n))) = n - 1.
Proof.
  intros Hp.
  assert (Hperm : Permutation (map (opponent p) (filter (involves p) (pairs n)))
                              (filter (fun q => negb (p =? q)) (range n))).
  { apply NoDup_Permutation.
    - apply NoDup_map_on; [|apply NoDup_filter, NoDup_pairs].
      intros [a b] [c d] Hu Hv. apply filter_In in Hu as [Hu Hiu].
      apply filter_In in Hv as [Hv Hiv]. apply in_pairs in Hu. apply in_pairs in Hv.
      apply involves_iff in Hiu. apply involves_iff in Hiv.
      unfold opponent. simpl in *.
      destruct (Z.eqb_spec a p), (Z.eqb_spec c p); intros Heq; f_equal; lia.
    - apply NoDup_filter, NoDup_range.
    - intros q. rewrite in_map_iff, filter_In, in_range, negb_true_iff, Z.eqb_neq.
      split.
      + intros ([a b] & <- & Hab). apply filter_In in Hab as [Hab Hinv].
        apply in_pairs in Hab. apply involves_iff in Hinv.
        unfold opponent. simpl in *. destruct (Z.eqb_spec a p); lia.
      + intros [Hq Hne]. exists (Z.min p q, Z.max p q). split.
        * unfold opponent. simpl. destruct (Z.eqb_spec (Z.min p q) p); lia.
        * apply filter_In. split; [apply in_pairs; lia|].
          apply involves_iff. simpl. lia. }
  rewrite <- (length_map (opponent p)), (Permutation_length Hperm).
  pose proof (filter_split_length (Z.eqb p) (range n)) as Hsplit.
  rewrite (filter_eqb_NoDup Z.eqb _ _ Z.eqb_eq (NoDup_range n)) in Hsplit
    by (now apply in_range).
  rewrite length_range in Hsplit. simpl in Hsplit. lia.
Qed.

Lemma participant_entries (n T : Z) (a : assignment) (p : Z) :
  satisfies a (build_model n T) -> 1 <= p <= n ->
  Z.of_nat (length (filter (entry_involves p) (sorted (extract_schedule n a))))
  = n - 1.
Proof.
  intros Hsat Hp.
  rewrite (Permutation_filter_length _ _ _ (sorted_perm _)).
  rewrite (extract_schedule_sat n T _ Hsat), filter_map_comm, length_map.
  rewrite (filter_ext _ (involves (p - 1))).
  - rewrite matches_of_participant; lia.
  - intros [i j]. unfold entry_involves, involves. simpl.
    destruct (Z.eqb_spec (i + 1) p), (Z.eqb_spec i (p - 1)),
      (Z.eqb_spec (j + 1) p), (Z.eqb_spec j (p - 1)); simpl; try reflexivity; lia.
Qed.

(** X5: when the solver's values satisfy the model, every participant
    (labelled 1..n) is in exactly n-1 entries of the returned schedule. *)
Theorem every_participant_plays_n_minus_1 {seconds : Type}
        (Solve : CpModel -> SatParameters seconds -> CpSolverStatus * assignment)
        (n : Z) (time_limit_s : option seconds) (num_workers : Z)
        (T : Z) (schedule : list triple) (p : Z) :
  schedule_round_robin Solve n time_limit_s num_workers = Some (T, schedule) ->
  satisfies (value_at Solve n time_limit_s num_workers T) (build_model n T) ->
  1 <= p <= n ->
  Z.of_nat (length (filter (entry_involves p) schedule)) = n - 1.
Proof.
  intros Hres Hsat Hp. apply returned_some in Hres as (_ & _ & _ & -> & _).
  now apply (participant_entries n T).
Qed.

Lemma every_participant_plays_n_minus_1_witness :
  Z.of_nat (length (filter (entry_involves 3)
              [(1, 1, 2); (2, 3, 4); (3, 1, 3); (4, 2, 4); (5, 1, 4); (6, 2, 3)]))
  = 4 - 1.
Proof.
  apply (every_participant_plays_n_minus_1 (seconds := Z)
           (try_candidate four_players_gap_2) 4 None 8 2).
  - vm_compute. reflexivity.
  - apply satisfiesb_iff. vm_compute. reflexivity.
  - lia.
Defined.

(** In a solution the true y[., r] are those of the two players of the
    round's match. *)
Lemma round_participants (n T r : Z) (a : assignment) :
  satisfies a (build_model n T) -> 0 <= r < rounds n ->
  length (filter (fun p => a (Y p r)) (range n)) = 2%nat
  /\ exists i j, In (i, j) (pairs n) /\ a (X i j r) = true
                 /\ forall p, 0 <= p < n -> (a (Y p r) = true <-> p = i \/ p = j).
Proof.
  intros Hsat Hr.
  destruct (length_1_singleton _ (holds_one_per_round a n T r Hsat Hr))
    as ([i j] & Hround).
  assert (Hij : In (i, j) (pairs n) /\ a (X i j r) = true).
  { assert (Hin : In (i, j)
                     (filter (fun ij => a (X (fst ij) (snd ij) r)) (pairs n)))
      by (rewrite Hround; now left).
    apply filter_In in Hin. exact Hin. }
  destruct Hij as [Hin Hx].
  assert (Hy : forall p, 0 <= p < n -> (a (Y p r) = true <-> p = i \/ p = j)).
  { intros p Hp. rewrite (linkage_meaning a n T p r Hsat Hp Hr). split.
    - intros (i' & j' & Hin' & Hinv & Hx').
      assert (Hmem : In (i', j')
                        (filter (fun ij => a (X (fst ij) (snd ij) r)) (pairs n)))
        by (apply filter_In; split; assumption).
      rewrite Hround in Hmem. destruct Hmem as [Heq|[]]. inversion Heq; subst. lia.
    - intros Hpij. exists i, j. repeat split; try assumption. lia. }
  split; [|exists i, j; auto].
  apply in_pairs in Hin.
  rewrite (filter_ext_in _ (fun p => (i =? p) || (j =? p))).
  - rewrite filter_or_disjoint.
    + rewrite !(filter_eqb_NoDup Z.eqb _ _ Z.eqb_eq (NoDup_range n))
        by (apply in_range; lia).
      reflexivity.
    + intros u Hu. apply Z.eqb_eq in Hu. apply Z.eqb_neq. lia.
  - intros p Hp. apply in_range in Hp. specialize (Hy p Hp).
    destruct (a (Y p r)), (Z.eqb_spec i p), (Z.eqb_spec j p); simpl;
      try reflexivity; exfalso.
    + assert (p = i \/ p = j) by (now apply Hy). lia.
    + assert (false = true) by (apply Hy; lia). discriminate.
    + assert (false = true) by (apply Hy; lia). discriminate.
    + assert (false = true) by (apply Hy; lia). discriminate.
Qed.

(** X6: in any solution of the model exactly two of the variables
    y[0, r], ..., y[n-1, r] are true in every round r: the two players of
    the round's match. *)
Theorem two_participants_per_round (n T r : Z) (a : assignment) :
  satisfies a (build_model n T) -> 0 <= r < rounds n ->
  length (filter (fun p => a (Y p r)) (range n)) = 2%nat
  /\ exists i j, In (i, j) (pairs n) /\ a (X i j r) = true
                 /\ forall p, 0 <= p < n -> (a (Y p r) = true <-> p = i \/ p = j).
Proof.
  intros Hsat Hr. exact (round_participants n T r a Hsat Hr).
Qed.

Lemma two_participants_per_round_witness :
  length (filter (fun p => assignment_of four_players_gap_2 (Y p 3)) (range 4))
  = 2%nat
  /\ exists i j, In (i, j) (pairs 4)
                 /\ assignment_of four_players_gap_2 (X i j 3) = true
                 /\ forall p, 0 <= p < 4 ->
                      (assignment_of four_players_gap_2 (Y p 3) = true
                       <-> p = i \/ p = j).
Proof.
  apply (two_participants_per_round 4 2 3 (assignment_of four_players_gap_2)).
  - apply satisfiesb_iff. vm_compute. reflexivity.
  - vm_compute. split; [discriminate|reflexivity].
Defined.

(** X7: when the solver's values satisfy the model, the returned schedule
    keeps the returned bound T: for every participant p in 1..n and every
    T+1 consecutive rounds s, ..., s+T within 1..M, the schedule has an entry
    in one of these rounds in which p plays. *)
Theorem returned_schedule_keeps_bound {seconds : Type}
        (Solve : CpModel -> SatParameters seconds -> CpSolverStatus * assignment)
        (n : Z) (time_limit_s : option seconds) (num_workers : Z)
        (T : Z) (schedule : list triple) (p s : Z) :
  schedule_round_robin Solve n time_limit_s num_workers = Some (T, schedule) ->
  satisfies (value_at Solve n time_limit_s num_workers T) (build_model n T) ->
  1 <= p <= n -> 1 <= s -> s + T <= rounds n ->
  exists e, In e schedule /\ s <= entry_round e <= s + T
            /\ entry_involves p e = true.
Proof.
  intros Hres Hsat Hp Hs HsT. apply returned_some in Hres as (HT & _ & _ & -> & _).
  pose proof Hsat as Hfam. apply satisfies_families in Hfam as (_ & _ & _ & H4).
  destruct (window_meaning _ n T (p - 1) (s - 1) H4 ltac:(lia) ltac:(lia))
    as (r & Hr & Hy).
  apply (linkage_meaning _ n T (p - 1) r Hsat ltac:(lia) ltac:(lia)) in Hy
    as (i & j & Hin & Hinv & Hx).
  exists (r + 1, i + 1, j + 1). split; [|split].
  - apply (Permutation_in _ (Permutation_sym (sorted_perm _))).
    apply in_extract_schedule_any. exists i, j, r. repeat split; auto; lia.
  - unfold entry_round. simpl. lia.
  - unfold entry_involves. simpl. apply orb_true_iff. rewrite !Z.eqb_eq. lia.
Qed.

Lemma returned_schedule_keeps_bound_witness :
  exists e, In e [(1, 1, 2); (2, 3, 4); (3, 1, 3); (4, 2, 4); (5, 1, 4); (6, 2, 3)]
            /\ 4 <= entry_round e <= 4 + 2
            /\ entry_involves 3 e = true.
Proof.
  apply (returned_schedule_keeps_bound (seconds := Z)
           (try_candidate four_players_gap_2) 4 None 8 2).
  - vm_compute. reflexivity.
  - apply satisfiesb_iff. vm_compute. reflexivity.
  - lia.
  - lia.
  - vm_compute. discriminate.
Defined.

(** * Further properties of the model *)

Lemma length_flat_map_const {A B : Type} (f : A -> list B) (l : list A) (k : nat) :
  (forall u, length (f u) = k) -> length (flat_map f l) = (length l * k)%nat.
Proof.
  intros Hf. induction l as [|u l IH]; [reflexivity|].
  simpl. now rewrite length_app, Hf, IH.
Qed.

Lemma x_vars_NoDup (n : Z) : NoDup (map snd (x_items n)).
Proof.
  unfold x_items. rewrite map_flat_map. apply NoDup_flat_map.
  - apply NoDup_pairs.
  - intros [i j] _. rewrite map_map. simpl.
    apply Injective_map_NoDup'; [|apply NoDup_range].
    intros u v Huv. now inversion Huv.
  - intros [i j] [i' j'] v _ _ H1 H2. rewrite map_map in H1, H2.
    apply in_map_iff in H1 as (r & <- & _). apply in_map_iff in H2 as (r' & Heq & _).
    simpl in Heq. now inversion Heq.
Qed.

Lemma y_vars_NoDup (n : Z) : NoDup (map snd (y_items n)).
Proof.
  unfold y_items. rewrite map_flat_map. apply NoDup_flat_map.
  - apply NoDup_range.
  - intros i _. rewrite map_map. simpl.
    apply Injective_map_NoDup'; [|apply NoDup_range].
    intros u v Huv. now inversion Huv.
  - intros i i' v _ _ H1 H2. rewrite map_map in H1, H2.
    apply in_map_iff in H1 as (r & <- & _). apply in_map_iff in H2 as (r' & Heq & _).
    simpl in Heq. now inversion Heq.
Qed.

(** X8: the model is well formed for every n and T: no Boolean variable is
    declared twice, and every variable a constraint mentions (in its sum or
    as its right-hand side) was declared, so each lookup x[(i, j, r)] and
    y[(i, r)] made while posting constraints hits an existing key. *)
Theorem model_variables_well_formed (n T : Z) :
  NoDup (bool_vars (build_model n T))
  /\ (forall c v, In c (constraints (build_model n T)) ->
                  In v (terms c) \/ bound c = Var v ->
                  In v (bool_vars (build_model n T)))
  /\ (forall i j r, In (X i j r) (bool_vars (build_model n T)) <->
                    0 <= i < j /\ j < n /\ 0 <= r < rounds n)
  /\ (forall p r, In (Y p r) (bool_vars (build_model n T)) <->
                  0 <= p < n /\ 0 <= r < rounds n).
Proof.
  split; [|split; [|split]].
  - rewrite build_model_vars. apply NoDup_app.
    + apply x_vars_NoDup.
    + apply y_vars_NoDup.
    + intros v Hx Hy. apply in_map_iff in Hx as ([k v'] & <- & Hx).
      unfold x_items in Hx. apply in_flat_map in Hx as ([i j] & _ & Hx).
      apply in_map_iff in Hx as (r & Heq & _). inversion Heq; subst.
      simpl in Hy. apply in_map_iff in Hy as ([k' v''] & Heq' & Hy).
      unfold y_items in Hy. apply in_flat_map in Hy as (p & _ & Hy).
      apply in_map_iff in Hy as (r' & Heq'' & _). inversion Heq''; subst.
      simpl in Heq'. discriminate.
  - intros c v. apply lookups_succeed.
  - intros i j r. rewrite build_model_vars, in_app_iff, in_x_vars, in_pairs. split.
    + intros [H|H]; [tauto|].
      apply in_map_iff in H as ([k v] & Heq & H). unfold y_items in H.
      apply in_flat_map in H as (p & _ & H).
      apply in_map_iff in H as (r' & Heq' & _). inversion Heq'; subst.
      simpl in Heq. discriminate.
    + intros H. left. tauto.
  - intros p r. rewrite build_model_vars, in_app_iff, in_y_vars. split.
    + intros [H|H]; [|tauto].
      apply in_map_iff in H as ([k v] & Heq & H). unfold x_items in H.
      apply in_flat_map in H as ([i j] & _ & H).
      apply in_map_iff in H as (r' & Heq' & _). inversion Heq'; subst.
      simpl in Heq. discriminate.
    + intros H. now right.
Qed.

(** X9: for n >= 0 and 0 <= T <= M the model has M*M + n*M Boolean
    variables and 2*M + n*M + n*(M - T) constraints. *)
Theorem model_size (n T : Z) :
  0 <= n -> 0 <= T <= rounds n ->
  Z.of_nat (length (bool_vars (build_model n T)))
  = rounds n * rounds n + n * rounds n
  /\ Z.of_nat (length (constraints (build_model n T)))
     = 2 * rounds n + n * rounds n + n * (rounds n - T).
Proof.
  intros Hn HT. pose proof (length_pairs n Hn) as Hlen. split.
  - rewrite build_model_vars, length_app, !length_map.
    unfold x_items, y_items.
    rewrite (length_flat_map_const _ _ (Z.to_nat (rounds n)))
      by (intros [i j]; now rewrite length_map, length_range).
    rewrite (length_flat_map_const _ _ (Z.to_nat (rounds n)))
      by (intros i; now rewrite length_map, length_range).
    rewrite length_range. nia.
  - rewrite build_model_constraints, !length_app.
    unfold match_once_constraints, one_per_round_constraints,
      linkage_constraints, window_constraints.
    rewrite !length_map, length_range.
    rewrite (length_flat_map_const _ _ (Z.to_nat (rounds n)))
      by (intros i; now rewrite length_map, length_range).
    rewrite (length_flat_map_const _ _ (Z.to_nat (rounds n - T)))
      by (intros i; now rewrite length_map, length_range).
    rewrite length_range. nia.
Qed.

Lemma model_size_witness :
  Z.of_nat (length (bool_vars (build_model 4 2))) = rounds 4 * rounds 4 + 4 * rounds 4
  /\ Z.of_nat (length (constraints (build_model 4 2)))
     = 2 * rounds 4 + 4 * rounds 4 + 4 * (rounds 4 - 2).
Proof.
  apply (model_size 4 2).
  - lia.
  - vm_compute. split; discriminate.
Defined.

(** * A lower bound on the feasible idle gaps *)

Lemma list_sum_map_add {A : Type} (f g : A -> nat) (l : list A) :
  list_sum (map (fun u => (f u + g u)%nat) l)
  = (list_sum (map f l) + list_sum (map g l))%nat.
Proof.
  induction l as [|u l IH]; [reflexivity|]. simpl. rewrite IH. lia.
Qed.

Lemma list_sum_indicator {A : Type} (f : A -> bool) (l : list A) :
  (exists u, In u l /\ f u = true) ->
  (1 <= list_sum (map (fun u => if f u then 1 else 0) l))%nat.
Proof.
  intros (u & Hin & Hu). induction l as [|v l IH]; [contradiction|].
  simpl. destruct Hin as [->|Hin].
  - rewrite Hu. lia.
  - specialize (IH Hin). lia.
Qed.

(** If every element of [l] is accepted in some slot of [rs], [l] is no
    longer than the slots' acceptance counts together. *)
Lemma covered_length {A B : Type} (f : A -> B -> bool) (l : list A) (rs : list B) :
  (forall u, In u l -> exists r, In r rs /\ f u r = true) ->
  (length l <= list_sum (map (fun r => length (filter (fun u => f u r) l)) rs))%nat.
Proof.
  induction l as [|u l IH]; intros Hcov.
  - simpl. lia.
  - assert (Hrest : forall v, In v l -> exists r, In r rs /\ f v r = true)
      by (intros v Hv; apply Hcov; now right).
    specialize (IH Hrest).
    rewrite (map_ext _ (fun r => ((if f u r then 1 else 0)
                                  + length (filter (fun v => f v r) l))%nat))
      by (intros r; simpl; now destruct (f u r)).
    rewrite list_sum_map_add.
    pose proof (list_sum_indicator (f u) rs (Hcov u (or_introl eq_refl))).
    simpl. lia.
Qed.

Lemma list_sum_const {A : Type} (g : A -> nat) (k : nat) (l : list A) :
  (forall u, In u l -> g u = k) -> list_sum (map g l) = (length l * k)%nat.
Proof.
  induction l as [|u l IH]; intros H; [reflexivity|].
  simpl. rewrite IH by (intros v Hv; apply H; now right).
  rewrite (H u) by now left. lia.
Qed.

Lemma gap_lower_bound (n T : Z) (a : assignment) :
  0 <= T < rounds n -> satisfies a (build_model n T) -> n <= 2 * (T + 1).
Proof.
  intros HT Hsat.
  assert (Hn : 0 <= n) by (apply (solution_n_nonneg n T a); [lia|assumption]).
  pose proof Hsat as Hfam. apply satisfies_families in Hfam as (_ & _ & _ & H4).
  pose proof (covered_length (fun p r => a (Y p r)) (range n) (range (T + 1)))
    as Hcov.
  rewrite length_range in Hcov.
  rewrite (list_sum_const _ 2%nat), length_range in Hcov.
  - assert (Hle : (Z.to_nat n <= Z.to_nat (T + 1) * 2)%nat).
    { apply Hcov. intros p Hp. apply in_range in Hp.
      destruct (window_meaning a n T p 0 H4 Hp ltac:(lia)) as (r & Hr & Hy).
      exists r. split; [apply in_range; lia|assumption]. }
    lia.
  - intros r Hr. apply in_range in Hr.
    apply (round_participants n T r a Hsat). lia.
Qed.

(** X10: a bound T < M whose model has a solution satisfies
    n <= 2*(T+1), since the first T+1 rounds seat only two players each;
    so when the solver answers truthfully, the returned T is at least
    n/2 - 1, and at least 1 for three or more players. *)
Theorem returned_gap_lower_bound {seconds : Type}
        (Solve : CpModel -> SatParameters seconds -> CpSolverStatus * assignment)
        (n : Z) (time_limit_s : option seconds) (num_workers : Z)
        (T : Z) (schedule : list triple) :
  schedule_round_robin Solve n time_limit_s num_workers = Some (T, schedule) ->
  truthful (build_model n T) (answer_at Solve n time_limit_s num_workers T) ->
  n <= 2 * (T + 1)
  /\ (forall T', 0 <= T' < rounds n -> feasible (build_model n T') ->
                 n <= 2 * (T' + 1))
  /\ (3 <= n -> 1 <= T).
Proof.
  intros Hres Htruth. apply returned_some in Hres as (HT & Hsol & _).
  assert (Hsat : satisfies (value_at Solve n time_limit_s num_workers T)
                           (build_model n T)).
  { unfold truthful in Htruth. unfold status_at in Hsol. unfold value_at.
    destruct (fst (answer_at Solve n time_limit_s num_workers T));
      try discriminate; exact Htruth. }
  pose proof (gap_lower_bound n T _ HT Hsat) as Hbound.
  split; [assumption|]. split; [|lia].
  intros T' HT' [a Ha]. now apply (gap_lower_bound n T' a).
Qed.

Lemma returned_gap_lower_bound_witness :
  4 <= 2 * (2 + 1)
  /\ (forall T', 0 <= T' < rounds 4 -> feasible (build_model 4 T') ->
                 4 <= 2 * (T' + 1))
  /\ (3 <= 4 -> 1 <= 2).
Proof.
  apply (returned_gap_lower_bound (seconds := Z)
           (try_candidate four_players_gap_2) 4 None 8 2
           [(1, 1, 2); (2, 3, 4); (3, 1, 3); (4, 2, 4); (5, 1, 4); (6, 2, 3)]).
  - vm_compute. reflexivity.
  - apply try_candidate_truthful.
Defined.

(** X11: with four players the bound 1 is not feasible although it passes
    the counting bound 4 <= 2*(1+1): two consecutive rounds would have to
    seat complementary pairs, so the third round would repeat the first
    match.  The least feasible bound for four players is 2. *)
Theorem four_players_minimal_gap : ~ feasible (build_model 4 1) /\ minimal_feasible 4 2.
Proof.
  assert (Hinf : ~ feasible (build_model 4 1)).
  { intros [a Hsat].
    assert (HM : rounds 4 = 6) by reflexivity.
    destruct (round_participants 4 1 0 a Hsat ltac:(lia))
      as (_ & i0 & j0 & Hin0 & Hx0 & Hy0).
    destruct (round_participants 4 1 1 a Hsat ltac:(lia))
      as (_ & i1 & j1 & Hin1 & _ & Hy1).
    destruct (round_participants 4 1 2 a Hsat ltac:(lia))
      as (_ & i2 & j2 & Hin2 & Hx2 & Hy2).
    pose proof Hsat as Hfam. apply satisfies_families in Hfam as (_ & _ & _ & H4).
    assert (W0 : forall p, 0 <= p < 4 -> p = i0 \/ p = j0 \/ p = i1 \/ p = j1).
    { intros p Hp.
      destruct (window_meaning a 4 1 p 0 H4 Hp ltac:(lia)) as (r & Hr & Hy).
      assert (Hr' : r = 0 \/ r = 1) by lia.
      destruct Hr' as [-> | ->]; [apply Hy0 in Hy|apply Hy1 in Hy]; tauto. }
    assert (W1 : forall p, 0 <= p < 4 -> p = i1 \/ p = j1 \/ p = i2 \/ p = j2).
    { intros p Hp.
      destruct (window_meaning a 4 1 p 1 H4 Hp ltac:(lia)) as (r & Hr & Hy).
      assert (Hr' : r = 1 \/ r = 2) by lia.
      destruct Hr' as [-> | ->]; [apply Hy1 in Hy|apply Hy2 in Hy]; tauto. }
    pose proof Hin0 as Hp0. pose proof Hin1 as Hp1. pose proof Hin2 as Hp2.
    apply in_pairs in Hp0. apply in_pairs in Hp1. apply in_pairs in Hp2.
    pose proof (W0 0 ltac:(lia)) as A0. pose proof (W0 1 ltac:(lia)) as A1.
    pose proof (W0 2 ltac:(lia)) as A2. pose proof (W0 3 ltac:(lia)) as A3.
    pose proof (W1 0 ltac:(lia)) as B0. pose proof (W1 1 ltac:(lia)) as B1.
    pose proof (W1 2 ltac:(lia)) as B2. pose proof (W1 3 ltac:(lia)) as B3.
    assert (Hsame : i0 = i2 /\ j0 = j2).
    { clear - Hp0 Hp1 Hp2 A0 A1 A2 A3 B0 B1 B2 B3.
      assert (C0 : i0 = 0 \/ i0 = 1 \/ i0 = 2) by (clear - Hp0; lia).
      assert (D0 : j0 = 1 \/ j0 = 2 \/ j0 = 3) by (clear - Hp0; lia).
      assert (C1 : i1 = 0 \/ i1 = 1 \/ i1 = 2) by (clear - Hp1; lia).
      assert (D1 : j1 = 1 \/ j1 = 2 \/ j1 = 3) by (clear - Hp1; lia).
      destruct C0 as [-> | [-> | ->]], D0 as [-> | [-> | ->]],
        C1 as [-> | [-> | ->]], D1 as [-> | [-> | ->]];
        try (exfalso; clear - Hp0 Hp1 A0 A1 A2 A3; lia);
        clear A0 A1 A2 A3; lia. }
    destruct Hsame as [<- <-].
    pose proof (round_of_unique 4 1 a i0 j0 0 Hsat Hin0
                  ltac:(clear; change (rounds 4) with 6; lia) Hx0) as E0.
    pose proof (round_of_unique 4 1 a i0 j0 2 Hsat Hin0
                  ltac:(clear; change (rounds 4) with 6; lia) Hx2) as E2.
    clear - E0 E2. lia. }
  split; [assumption|]. split.
  - exists (assignment_of four_players_gap_2). apply satisfiesb_iff.
    vm_compute. reflexivity.
  - intros T' HT' Hfeas. assert (HT : T' = 0 \/ T' = 1) by lia.
    destruct HT as [-> | ->]; [|contradiction].
    destruct Hfeas as [a Ha].
    pose proof (gap_lower_bound 4 0 a ltac:(vm_compute; split; [discriminate|reflexivity]) Ha).
    lia.
Qed.

(** * The main block *)

Lemma to_int_not_nil (z : Z) :
  Z.to_int z <> Decimal.Pos Decimal.Nil /\ Z.to_int z <> Decimal.Neg Decimal.Nil.
Proof.
  split; intros H; pose proof (f_equal Z.of_int H) as Hz;
    rewrite DecimalZ.of_to in Hz; simpl in Hz; subst z; vm_compute in H;
    discriminate.
Qed.

Lemma str_inj (z z' : Z) : str z = str z' -> z = z'.
Proof.
  unfold str. intros H. apply (f_equal NilZero.int_of_string) in H.
  destruct (to_int_not_nil z) as [Hp Hn]. destruct (to_int_not_nil z') as [Hp' Hn'].
  rewrite !NilZero.isi in H by assumption.
  inversion H as [H']. now apply DecimalZ.to_int_inj.
Qed.

Lemma append_inj_r (s u v : string) : String.append s u = String.append s v -> u = v.
Proof.
  induction s as [|c s IH]; simpl; intros H; [assumption|].
  inversion H. auto.
Qed.

Lemma player_key_inj (k k' : Z) : player_key k = player_key k' -> k = k'.
Proof.
  unfold player_key. intros H. apply append_inj_r in H. now apply str_inj.
Qed.

Lemma dict_set_fresh (d : row) (k : string) (v : Z) :
  ~ In k (map fst d) -> dict_set d k v = d ++ [(k, v)].
Proof.
  induction d as [|[k' v'] d IH]; simpl; intros Hnot; [reflexivity|].
  destruct (String.eqb_spec k k') as [->|Hne].
  - exfalso. apply Hnot. now left.
  - f_equal. apply IH. intros Hin. apply Hnot. now right.
Qed.

Lemma fold_dict_set_fresh {A : Type} (key : A -> string) (val : A -> Z)
      (ks : list A) (d : row) :
  NoDup (map key ks) ->
  (forall u, In u ks -> ~ In (key u) (map fst d)) ->
  fold_left (fun r u => dict_set r (key u) (val u)) ks d
  = d ++ map (fun u => (key u, val u)) ks.
Proof.
  revert d. induction ks as [|u ks IH]; intros d Hnd Hfresh; simpl.
  - now rewrite app_nil_r.
  - inversion Hnd as [|? ? Hu Hks]; subst.
    rewrite dict_set_fresh by (apply Hfresh; now left).
    rewrite IH; [now rewrite <- app_assoc|assumption|].
    intros v Hv Hin. rewrite map_app, in_app_iff in Hin. destruct Hin as [Hin|Hin].
    + apply (Hfresh v); [now right|assumption].
    + simpl in Hin. destruct Hin as [Heq|[]]. apply Hu. rewrite Heq.
      now apply in_map.
Qed.

Lemma dict_get_in (d : row) (k : string) (v : Z) :
  NoDup (map fst d) -> In (k, v) d -> dict_get d k = Some v.
Proof.
  induction d as [|[k' v'] d IH]; simpl; intros Hnd Hin; [contradiction|].
  inversion Hnd as [|? ? Hk' Hd]; subst.
  destruct Hin as [Heq|Hin].
  - inversion Heq; subst. now rewrite String.eqb_refl.
  - destruct (String.eqb_spec k k') as [->|Hne]; [|now apply IH].
    exfalso. apply Hk'. apply in_map_iff. exists (k', v). auto.
Qed.

Lemma dict_get_absent (d : row) (k : string) :
  ~ In k (map fst d) -> dict_get d k = None.
Proof.
  induction d as [|[k' v'] d IH]; simpl; intros Hnot; [reflexivity|].
  destruct (String.eqb_spec k k') as [->|Hne].
  - exfalso. apply Hnot. now left.
  - apply IH. intros Hin. apply Hnot. now right.
Qed.

Lemma player_keys_NoDup (l : list Z) : NoDup l -> NoDup (map player_key l).
Proof.
  apply Injective_map_NoDup'. apply player_key_inj.
Qed.

Lemma make_row_spec (n_players round_ p1 p2 : Z) :
  make_row n_players (round_, p1, p2)
  = ("Round"%string, round_)
      :: map (fun k => (player_key k, plays_mark k p1 p2))
             (range2 1 (n_players + 1)).
Proof.
  unfold make_row.
  rewrite (fold_dict_set_fresh player_key (fun k => plays_mark k p1 p2)).
  - reflexivity.
  - apply player_keys_NoDup, NoDup_range2.
  - intros k _ [Hin|[]]. unfold player_key in Hin. simpl in Hin. discriminate.
Qed.

Lemma make_row_keys_NoDup (n_players : Z) (e : triple) :
  NoDup (map fst (make_row n_players e)).
Proof.
  destruct e as [[round_ p1] p2]. rewrite make_row_spec. simpl. constructor.
  - rewrite map_map. simpl. intros Hin. apply in_map_iff in Hin as (k & Hk & _).
    unfold player_key in Hk. simpl in Hk. discriminate.
  - rewrite map_map. simpl. apply player_keys_NoDup, NoDup_range2.
Qed.

(** X12: the row built for a schedule entry has the column "Round" first
    and then one column "Player k" for each k in 1..n_players, in this
    order and without a repeated key; looking a column up gives the round,
    respectively 1 when k is one of the entry's two players and 0
    otherwise; a player outside 1..n_players has no column. *)
Theorem table_row_columns (n_players round_ p1 p2 : Z) :
  let r := make_row n_players (round_, p1, p2) in
  map fst r = "Round"%string :: map player_key (range2 1 (n_players + 1))
  /\ NoDup (map fst r)
  /\ dict_get r "Round" = Some round_
  /\ (forall k, 1 <= k <= n_players ->
        dict_get r (player_key k) = Some (if (k =? p1) || (k =? p2) then 1 else 0))
  /\ (forall k, ~ 1 <= k <= n_players -> dict_get r (player_key k) = None).
Proof.
  intros r. pose proof (make_row_keys_NoDup n_players (round_, p1, p2)) as Hnd.
  fold r in Hnd. assert (Hr : r = ("Round"%string, round_)
      :: map (fun k => (player_key k, plays_mark k p1 p2))
             (range2 1 (n_players + 1))) by apply make_row_spec.
  split; [|split; [assumption|split; [|split]]].
  - rewrite Hr. simpl. now rewrite map_map.
  - apply dict_get_in; [assumption|]. rewrite Hr. now left.
  - intros k Hk. apply dict_get_in; [assumption|]. rewrite Hr. right.
    apply in_map_iff. exists k. split; [reflexivity|]. apply in_range2. lia.
  - intros k Hk. apply dict_get_absent. rewrite Hr. simpl. rewrite map_map. simpl.
    intros [Hin|Hin].
    + unfold player_key in Hin. simpl in Hin. discriminate.
    + apply in_map_iff in Hin as (k' & Heq & Hk'). apply player_key_inj in Heq.
      subst k'. apply in_range2 in Hk'. lia.
Qed.

Lemma report_success (n_players T_opt : Z) (schedule : list triple) :
  report n_players (Some (T_opt, schedule))
  = (print (String.append "Optimal maximum idle gap: "
                          (String.append (str T_opt) newline))
       :: map (fun e => print (match_line e)) schedule,
     Some (map (make_row n_players) schedule)).
Proof.
  unfold report.
  set (header := print _).
  assert (H : forall out data,
             fold_left (fun '(out, data) e =>
                          (out ++ [print (match_line e)],
                           data ++ [make_row n_players e]))
                       schedule (out, data)
             = (out ++ map (fun e => print (match_line e)) schedule,
                data ++ map (make_row n_players) schedule)).
  { induction schedule as [|e l IH]; intros out data; simpl.
    - now rewrite !app_nil_r.
    - rewrite IH, <- !app_assoc. reflexivity. }
  rewrite H. reflexivity.
Qed.

(** X13: the main block prints the single line "No feasible schedule found
    within the time limit." exactly when [schedule_round_robin] returns
    None, builds no table then, and invokes the solver only through that
    call; in particular for the arguments 0 and 1 it prints this line
    without any solver invocation, and without an argument it schedules six
    players. *)
Theorem main_failure_message
        (Solve : CpModel -> SatParameters Z -> CpSolverStatus * assignment)
        (argument : option Z) :
  let n_players := match argument with Some k => k | None => 6 end in
  (schedule_round_robin Solve n_players (Some 30) 8 = None
   <-> snd (main Solve argument) = ([print no_schedule_message], None))
  /\ (schedule_round_robin Solve n_players (Some 30) 8 = None
      <-> snd (snd (main Solve argument)) = None)
  /\ fst (main Solve argument)
     = fst (schedule_round_robin_run Solve n_players (Some 30) 8)
  /\ (n_players = 0 \/ n_players = 1 ->
      main Solve argument = ([], ([print no_schedule_message], None))).
Proof.
  intros n_players. unfold main, schedule_round_robin. fold n_players.
  destruct (schedule_round_robin_run Solve n_players (Some 30) 8)
    as [calls result] eqn:Hrun.
  simpl. split; [|split; [|split]].
  - split; [intros ->; reflexivity|].
    destruct result as [[T s]|]; [|reflexivity].
    rewrite report_success. intros H. inversion H.
  - split; [intros ->; reflexivity|].
    destruct result as [[T s]|]; [|reflexivity].
    rewrite report_success. simpl. discriminate.
  - reflexivity.
  - intros Hn. rewrite (small_n_run Solve n_players (Some 30) 8 Hn) in Hrun.
    inversion Hrun; subst. reflexivity.
Qed.

Lemma make_row_round (n_players : Z) (e : triple) :
  dict_get (make_row n_players e) "Round" = Some (entry_round e).
Proof.
  destruct e as [[round_ p1] p2]. rewrite make_row_spec. reflexivity.
Qed.

Lemma make_row_player (n_players : Z) (e : triple) (k : Z) :
  1 <= k <= n_players ->
  dict_get (make_row n_players e) (player_key k)
  = Some (if entry_involves k e then 1 else 0).
Proof.
  intros Hk. apply dict_get_in; [apply make_row_keys_NoDup|].
  destruct e as [[round_ p1] p2]. rewrite make_row_spec. right.
  apply in_map_iff. exists k. split; [|apply in_range2; lia].
  unfold plays_mark, entry_involves. simpl.
  now rewrite (Z.eqb_sym k p1), (Z.eqb_sym k p2).
Qed.

Lemma column_total_counts (n_players : Z) (schedule : list triple) (k : Z) :
  1 <= k <= n_players ->
  column_total (map (make_row n_players) schedule) (player_key k)
  = Z.of_nat (length (filter (entry_involves k) schedule)).
Proof.
  intros Hk. induction schedule as [|e l IH]; [reflexivity|].
  cbn [map column_total fold_right filter].
  rewrite (make_row_player n_players e k Hk).
  fold (column_total (map (make_row n_players) l) (player_key k)). rewrite IH.
  destruct (entry_involves k e); cbn [length]; lia.
Qed.

(** X14: when the call returns a schedule whose solver values satisfy the
    model, the main block prints the header and then one line per round,
    M + 1 writes in all, and builds a table of M rows whose "Round" column
    reads 1, 2, ..., M and in which every player's column adds up to
    n - 1. *)
Theorem main_prints_schedule_table
        (Solve : CpModel -> SatParameters Z -> CpSolverStatus * assignment)
        (argument : option Z) (T : Z) (schedule : list triple) :
  let n_players := match argument with Some k => k | None => 6 end in
  schedule_round_robin Solve n_players (Some 30) 8 = Some (T, schedule) ->
  satisfies (value_at Solve n_players (Some 30) 8 T) (build_model n_players T) ->
  exists out data,
    snd (main Solve argument) = (out, Some data)
    /\ out = print (String.append "Optimal maximum idle gap: "
                                  (String.append (str T) newline))
               :: map (fun e => print (match_line e)) schedule
    /\ data = map (make_row n_players) schedule
    /\ Z.of_nat (length out) = rounds n_players + 1
    /\ Z.of_nat (length data) = rounds n_players
    /\ map (fun r => dict_get r "Round") data
       = map (fun k => Some (k + 1)) (range (rounds n_players))
    /\ forall p, 1 <= p <= n_players ->
                 column_total data (player_key p) = n_players - 1.
Proof.
  intros n_players Hres Hsat.
  pose proof Hres as Hret. apply returned_some in Hret as (HT & _ & _ & Hsched & _).
  pose proof (sorted_rounds_in_order n_players T _ ltac:(lia) Hsat) as Hrounds.
  rewrite <- Hsched in Hrounds.
  assert (Hlen : Z.of_nat (length schedule) = rounds n_players).
  { rewrite <- (length_map entry_round), Hrounds, length_map, length_range. lia. }
  unfold main, schedule_round_robin in *. fold n_players.
  destruct (schedule_round_robin_run Solve n_players (Some 30) 8)
    as [calls result]. simpl in Hres. subst result. cbn [snd].
  rewrite report_success. eexists _, _. split; [reflexivity|].
  split; [reflexivity|]. split; [reflexivity|].
  split; [cbn [length]; rewrite length_map; lia|].
  split; [rewrite length_map; exact Hlen|]. split.
  - rewrite map_map.
    rewrite (map_ext _ (fun e => Some (entry_round e)))
      by (intros e; apply make_row_round).
    rewrite <- (map_map entry_round Some), Hrounds, map_map. reflexivity.
  - intros p Hp. rewrite (column_total_counts n_players schedule p Hp), Hsched.
    now apply (participant_entries n_players T).
Qed.

Lemma main_prints_schedule_table_witness :
  exists out data,
    snd (main (try_candidate four_players_gap_2) (Some 4)) = (out, Some data)
    /\ out = print (String.append "Optimal maximum idle gap: "
                                  (String.append (str 2) newline))
               :: map (fun e => print (match_line e))
                      [(1, 1, 2); (2, 3, 4); (3, 1, 3); (4, 2, 4); (5, 1, 4);
                       (6, 2, 3)]
    /\ data = map (make_row 4)
                  [(1, 1, 2); (2, 3, 4); (3, 1, 3); (4, 2, 4); (5, 1, 4); (6, 2, 3)]
    /\ Z.of_nat (length out) = rounds 4 + 1
    /\ Z.of_nat (length data) = rounds 4
    /\ map (fun r => dict_get r "Round") data
       = map (fun k => Some (k + 1)) (range (rounds 4))
    /\ forall p, 1 <= p <= 4 -> column_total data (player_key p) = 4 - 1.
Proof.
  apply (main_prints_schedule_table (try_candidate four_players_gap_2) (Some 4) 2).
  - vm_compute. reflexivity.
  - apply satisfiesb_iff. vm_compute. reflexivity.
Defined.

(** * Completeness of the encoding *)

Section Ordering.

Variables (n T : Z) (order : list (Z * Z)).
Hypothesis n_nonneg : 0 <= n.
Hypothesis order_perm : Permutation order (pairs n).

Lemma order_length : Z.of_nat (length order) = rounds n.
Proof. rewrite (Permutation_length order_perm). now apply length_pairs. Qed.

Lemma order_NoDup : NoDup order.
Proof.
  apply (Permutation_NoDup (Permutation_sym order_perm)), NoDup_pairs.
Qed.

Lemma order_range : range (rounds n) = map Z.of_nat (seq 0 (length order)).
Proof. unfold range. now rewrite <- order_length, Nat2Z.id. Qed.

Lemma order_nth_in (r : Z) :
  0 <= r < rounds n -> In (nth (Z.to_nat r) order (-1, -1)) (pairs n).
Proof.
  intros Hr. apply (Permutation_in _ order_perm). apply nth_In.
  pose proof order_length. lia.
Qed.

Lemma play_X (i j r : Z) :
  0 <= r ->
  play_in_order order (X i j r) = pair_eqb (nth (Z.to_nat r) order (-1, -1)) (i, j).
Proof.
  intros Hr. unfold play_in_order.
  now replace (0 <=? r) with true by (symmetry; apply Z.leb_le; lia).
Qed.

Lemma play_Y (p r : Z) :
  0 <= r ->
  play_in_order order (Y p r) = involves p (nth (Z.to_nat r) order (-1, -1)).
Proof.
  intros Hr. unfold play_in_order.
  now replace (0 <=? r) with true by (symmetry; apply Z.leb_le; lia).
Qed.

Lemma play_match_once (i j : Z) :
  In (i, j) (pairs n) ->
  length (filter (fun r => play_in_order order (X i j r)) (range (rounds n)))
  = 1%nat.
Proof.
  intros Hin. rewrite order_range, filter_map_comm, length_map.
  rewrite (filter_ext _ (fun k => pair_eqb (i, j) (nth k order (-1, -1)))).
  - rewrite <- (length_map (fun k => nth k order (-1, -1))).
    rewrite <- filter_map_comm, map_nth_seq.
    rewrite (filter_eqb_NoDup pair_eqb _ _ pair_eqb_eq order_NoDup); [reflexivity|].
    now apply (Permutation_in _ (Permutation_sym order_perm)).
  - intros k. rewrite play_X by lia. rewrite Nat2Z.id.
    unfold pair_eqb. simpl. now rewrite (Z.eqb_sym i), (Z.eqb_sym j).
Qed.

Lemma play_round (r : Z) :
  0 <= r < rounds n ->
  filter (fun ij => play_in_order order (X (fst ij) (snd ij) r)) (pairs n)
  = [nth (Z.to_nat r) order (-1, -1)].
Proof.
  intros Hr.
  rewrite (filter_ext _ (pair_eqb (nth (Z.to_nat r) order (-1, -1)))).
  - apply (filter_eqb_NoDup pair_eqb _ _ pair_eqb_eq (NoDup_pairs n)).
    now apply order_nth_in.
  - intros [i j]. simpl. apply play_X. lia.
Qed.

Lemma play_satisfies :
  keeps_gap n T order -> satisfies (play_in_order order) (build_model n T).
Proof.
  intros Hgap.
  apply satisfies_families. repeat split; apply Forall_forall; intros c Hc.
  - apply in_map_iff in Hc as ([i j] & <- & Hij).
    unfold holds. cbn [rel terms bound match_once bound_value].
    rewrite sum_vars_map, (play_match_once i j Hij). reflexivity.
  - apply in_map_iff in Hc as (r & <- & Hr). apply in_range in Hr.
    unfold holds. cbn [rel terms bound one_per_round bound_value].
    rewrite sum_vars_map.
    rewrite (filter_ext _ (fun ij => play_in_order order (X (fst ij) (snd ij) r)))
      by (now intros [u v]).
    now rewrite (play_round r Hr).
  - apply in_flat_map in Hc as (p & Hp & Hc).
    apply in_map_iff in Hc as (r & <- & Hr). apply in_range in Hr.
    unfold holds. cbn [rel terms bound linkage bound_value].
    rewrite sum_vars_map.
    rewrite (filter_ext _ (fun ij => play_in_order order (X (fst ij) (snd ij) r)))
      by (now intros [u v]).
    rewrite filter_comm, (play_round r Hr), play_Y by lia.
    cbn [filter]. now destruct (involves p _).
  - apply in_flat_map in Hc as (p & Hp & Hc).
    apply in_map_iff in Hc as (start & <- & Hs).
    apply in_range in Hp. apply in_range in Hs.
    unfold holds. cbn [rel terms bound window bound_value].
    apply sum_vars_ge_1.
    destruct (Hgap p start Hp Hs) as (s & Hs' & Hinv).
    exists (Y p (start + s)). split.
    + apply in_map_iff. exists s. split; [reflexivity|]. apply in_range. lia.
    + rewrite play_Y by lia. exact Hinv.
Qed.

Lemma schedule_of_order_sorted : StronglySorted triple_le (schedule_of_order order).
Proof.
  unfold schedule_of_order. generalize 0%nat as s.
  induction (length order) as [|len IH]; intros s; simpl; constructor; [apply IH|].
  apply Forall_forall. intros e He. apply in_map_iff in He as (k & <- & Hk).
  apply in_seq in Hk. unfold triple_le, triple_leb.
  replace (Z.of_nat s + 1 <? Z.of_nat k + 1) with true
    by (symmetry; apply Z.ltb_lt; lia).
  reflexivity.
Qed.

Lemma play_extract_perm :
  keeps_gap n T order ->
  Permutation (extract_schedule n (play_in_order order)) (schedule_of_order order).
Proof.
  intros Hgap. pose proof (play_satisfies Hgap) as Hsat.
  pose proof order_length as Hlen.
  apply NoDup_Permutation.
  - apply (NoDup_map_inv entry_match). now apply (extract_matches_NoDup n T).
  - apply (NoDup_map_inv entry_round). unfold schedule_of_order.
    rewrite map_map. unfold entry_round. simpl.
    apply Injective_map_NoDup'; [intros u v; lia|apply seq_NoDup].
  - intros e. rewrite in_extract_schedule_any. unfold schedule_of_order.
    rewrite in_map_iff. split.
    + intros (i & j & r & Hin & Hr & Ha & ->). rewrite play_X in Ha by lia.
      apply pair_eqb_eq in Ha. exists (Z.to_nat r). split.
      * rewrite Ha, Z2Nat.id by lia. reflexivity.
      * apply in_seq. lia.
    + intros (k & <- & Hk). apply in_seq in Hk.
      destruct (nth k order (-1, -1)) as [i j] eqn:Hnth.
      exists i, j, (Z.of_nat k). repeat split; try lia.
      * apply (Permutation_in _ order_perm). rewrite <- Hnth. apply nth_In. lia.
      * rewrite play_X by lia. rewrite Nat2Z.id, Hnth. now apply pair_eqb_eq.
Qed.

End Ordering.

(** X15: the encoding is complete: any order of the matches (a
    rearrangement of [pairs], one match per round) in which every
    participant plays in every T+1 consecutive rounds gives an assignment
    that satisfies the model for T, and extracting the schedule from this
    assignment gives back that order with 1-based labels. *)
Theorem encoder_complete (n T : Z) (order : list (Z * Z)) :
  0 <= n -> Permutation order (pairs n) -> keeps_gap n T order ->
  satisfies (play_in_order order) (build_model n T)
  /\ sorted (extract_schedule n (play_in_order order)) = schedule_of_order order.
Proof.
  intros Hn Hperm Hgap. split; [now apply play_satisfies|].
  apply (sorted_perm_unique triple_le triple_le_antisym).
  - apply sorted_sorted.
  - apply schedule_of_order_sorted.
  - rewrite sorted_perm. now apply (play_extract_perm n T).
Qed.

Lemma encoder_complete_witness :
  satisfies (play_in_order [(0, 1); (2, 3); (0, 2); (1, 3); (0, 3); (1, 2)])
            (build_model 4 2)
  /\ sorted (extract_schedule 4
               (play_in_order [(0, 1); (2, 3); (0, 2); (1, 3); (0, 3); (1, 2)]))
     = schedule_of_order [(0, 1); (2, 3); (0, 2); (1, 3); (0, 3); (1, 2)].
Proof.
  apply (encoder_complete 4 2).
  - lia.
  - apply NoDup_Permutation.
    + repeat (constructor; [simpl; intuition discriminate|]). constructor.
    + apply NoDup_pairs.
    + intros ij. change (pairs 4) with [(0, 1); (0, 2); (0, 3); (1, 2); (1, 3); (2, 3)].
      simpl. tauto.
  - unfold keeps_gap. change (rounds 4 - 2) with 4. intros p start Hp Hs.
    assert (Hp' : p = 0 \/ p = 1 \/ p = 2 \/ p = 3) by lia.
    assert (Hs' : start = 0 \/ start = 1 \/ start = 2 \/ start = 3) by lia.
    destruct Hp' as [-> | [-> | [-> | ->]]], Hs' as [-> | [-> | [-> | ->]]];
      first [ exists 0; split; [lia|reflexivity]
            | exists 1; split; [lia|reflexivity]
            | exists 2; split; [lia|reflexivity] ].
Defined.

(** X16: the search looks at a status only through the test
    "OPTIMAL or FEASIBLE": relabelling the solver's statuses in any way that
    keeps this test (OPTIMAL for FEASIBLE, MODEL_INVALID or UNKNOWN for
    INFEASIBLE, ...) changes neither the invocations nor the result. *)
Theorem only_success_test_matters {seconds : Type}
        (relabelling : CpSolverStatus -> CpSolverStatus)
        (Solve : CpModel -> SatParameters seconds -> CpSolverStatus * assignment)
        (n : Z) (time_limit_s : option seconds) (num_workers : Z) :
  (forall status, reports_solution (relabelling status) = reports_solution status) ->
  schedule_round_robin_run (relabel relabelling Solve) n time_limit_s num_workers
  = schedule_round_robin_run Solve n time_limit_s num_workers.
Proof.
  intros Hkeep. unfold schedule_round_robin_run. apply for_T_agree.
  intros model parameters. unfold relabel.
  destruct (Solve model parameters) as [st v]. simpl. auto.
Qed.

Lemma only_success_test_matters_witness :
  schedule_round_robin_run (seconds := Z)
    (relabel (fun status => match status with
                            | OPTIMAL => FEASIBLE
                            | FEASIBLE => OPTIMAL
                            | _ => MODEL_INVALID
                            end)
             (candidate_or_infeasible three_players)) 3 None 8
  = schedule_round_robin_run (seconds := Z)
      (candidate_or_infeasible three_players) 3 None 8.
Proof.
  apply only_success_test_matters. intros status. now destruct status.
Defined.

(** * The bound search finds the least idle gap *)





